(** * A shared integer stack behind a character device

    Shallow embedding of the stack kept by the character driver in
    [source.c]: the three globals [stack_entries], [stack_size] and [top],
    and the five file operations [new_open], [new_release], [new_read],
    [new_write] and [new_ioctl] that act on them.

    Every file operation takes [stack_mutex] on entry and drops it on each
    return path, so the operations are modelled as atomic functions on the
    globals.  The registration of the device in [character_driver_init] and
    its removal in [character_driver_exit] are modelled by what the kernel
    holds for the module. *)

From stdpp Require Import base numbers list option.

Local Open Scope Z_scope.

(** ** Constants of the source *)

Definition MEM_SIZE : Z := 1024.
Definition STACK_MAX_SIZE : Z := 1024.

(** [sizeof(int32_t)], the value returned by a successful read or write. *)
Definition sizeof_int32 : Z := 4.

(** The error numbers of [errno-base.h] that the driver returns negated. *)
Definition ENOMEM : Z := 12.
Definition EFAULT : Z := 14.
Definition EINVAL : Z := 22.

(** ** Machine integers *)

(** A value stored into a [uint8_t] variable is reduced modulo 2^8. *)
Definition to_uint8 (z : Z) : Z := z mod 256.

Definition uint8 (z : Z) : Prop := 0 ≤ z < 256.

(** The cells of the stack are [int32_t]; they are only copied, never
    computed with, so a cell is the integer it holds. *)
Abbreviation int32 := Z (only parsing).

(** ** The globals *)

(** [stack_entries] is [None] for the [NULL] pointer, and otherwise the
    block the pointer refers to, one list element per [int32_t] cell. *)
Record stack : Type := Stack {
  stack_entries : option (list int32);
  stack_size : Z;
  top : Z
}.

(** The values of the static initialisers. *)
Definition init : stack :=
  {| stack_entries := None; stack_size := 0; top := 0 |}.

(** ** Results *)

(** The line an operation sends to the kernel log; each call of a file
    operation reaches exactly one [printk]. *)
Inductive kmsg : Type :=
| KOpenNoMem        (* "-- Cannot allocate memory for stack." *)
| KOpened           (* "-- Device file open." *)
| KClosed           (* "-- Device file closed." *)
| KEmpty            (* "-- Stack is empty. Cannot pop." *)
| KCopyToUser       (* "-- Failed to copy data to user space." *)
| KRead             (* "-- Data read (popped from stack)." *)
| KFull             (* "-- Stack is full. Cannot push more data." *)
| KCopyFromUser     (* "-- Failed to copy data from user space." *)
| KWritten          (* "-- Data written (pushed to stack)." *)
| KResizeNoMem      (* "-- Failed to allocate memory for resizing stack." *)
| KResized (arg : Z)(* "-- Stack resized to %lu." *)
| KInvalidSize      (* "-- Invalid stack size." *)
| KInvalidCmd.      (* "-- Invalid ioctl command." *)

(** What the caller observes: the returned number, the log line, and the
    cell copied to the user's buffer, if any. *)
Record reply : Type := Reply {
  ret : Z;
  dmesg : kmsg;
  to_user : option int32
}.

Definition done_ (r : Z) (m : kmsg) : reply :=
  {| ret := r; dmesg := m; to_user := None |}.

Definition fail_ (errno : Z) (m : kmsg) : reply :=
  {| ret := - errno; dmesg := m; to_user := None |}.

(** Accesses that C leaves undefined: through the [NULL] pointer, or
    outside the block a pointer refers to. *)
Inductive fault : Type := NullDeref | OutOfBounds.

Inductive outcome (A : Type) : Type :=
| Ret (a : A)
| Undefined (f : fault).
Arguments Ret {A} a.
Arguments Undefined {A} f.

(** Sequencing stops at the first undefined access; [x ← o; k] is stdpp's
    notation for it. *)
#[global] Instance outcome_bind : MBind outcome := λ A B k o,
  match o with
  | Ret a => k a
  | Undefined f => Undefined f
  end.

#[global] Instance outcome_ret : MRet outcome := λ A a, Ret a.

(** ** The allocator and the copies *)

(** What one call of [kmalloc] answers: [None] when it returns [NULL],
    otherwise the contents the fresh block happens to hold. *)
Abbreviation heap_oracle := (option (nat → int32)) (only parsing).

(** [kmalloc(n * sizeof(int32_t), GFP_KERNEL)]. *)
Definition kmalloc (km : heap_oracle) (n : Z) : option (list int32) :=
  (fun junk => junk <$> seq 0 (Z.to_nat n)) <$> km.

(** [memcpy(dst, src, n * sizeof(int32_t))]: the first [n] cells of [dst]
    become those of [src]; undefined when either block is shorter. *)
Definition memcpy (dst src : list int32) (n : nat) : outcome (list int32) :=
  if decide (n ≤ length src ∧ n ≤ length dst)%nat
  then Ret (take n src ++ drop n dst)
  else Undefined OutOfBounds.

(** ** The file operations *)

Definition new_open (km : heap_oracle) (st : stack) : reply * stack :=
  match stack_entries st with
  | None =>
      match kmalloc km MEM_SIZE with
      | None => (fail_ ENOMEM KOpenNoMem, st)
      | Some block =>
          (done_ 0 KOpened,
           {| stack_entries := Some block;
              stack_size := to_uint8 MEM_SIZE;
              top := 0 |})
      end
  | Some _ => (done_ 0 KOpened, st)
  end.

Definition new_release (st : stack) : reply * stack :=
  match stack_entries st with
  | Some _ =>
      (done_ 0 KClosed,
       {| stack_entries := None; stack_size := 0; top := 0 |})
  | None => (done_ 0 KClosed, st)
  end.

(** [user_ok] tells whether [copy_to_user] can write the caller's buffer.
    [len] is the byte count the caller asked for; the source ignores it. *)
Definition new_read (st : stack) (user_ok : bool) (len : Z)
  : outcome (reply * stack) :=
  if top st =? 0 then Ret (fail_ EINVAL KEmpty, st)
  else
    match stack_entries st with
    | None => Undefined NullDeref
    | Some block =>
        match block !! Z.to_nat (top st - 1) with
        | None => Undefined OutOfBounds
        | Some v =>
            if user_ok
            then Ret ({| ret := sizeof_int32; dmesg := KRead; to_user := Some v |},
                      {| stack_entries := Some block;
                         stack_size := stack_size st;
                         top := to_uint8 (top st - 1) |})
            else Ret (fail_ EFAULT KCopyToUser, st)
        end
    end.

(** [user] is the cell [copy_from_user] finds in the caller's buffer,
    [None] when the buffer cannot be read. *)
Definition new_write (st : stack) (user : option int32) (len : Z)
  : outcome (reply * stack) :=
  if top st >=? stack_size st then Ret (fail_ ENOMEM KFull, st)
  else
    match stack_entries st with
    | None => Undefined NullDeref
    | Some block =>
        if decide (Z.to_nat (top st) < length block)%nat
        then
          match user with
          | None => Ret (fail_ EFAULT KCopyFromUser, st)
          | Some v =>
              Ret (done_ sizeof_int32 KWritten,
                   {| stack_entries := Some (<[Z.to_nat (top st) := v]> block);
                      stack_size := stack_size st;
                      top := to_uint8 (top st + 1) |})
          end
        else Undefined OutOfBounds
    end.

Definition new_ioctl (st : stack) (km : heap_oracle) (cmd arg : Z)
  : outcome (reply * stack) :=
  if cmd =? 1 then
    if (0 <? arg) && (arg <=? STACK_MAX_SIZE) then
      match kmalloc km arg with
      | None => Ret (fail_ ENOMEM KResizeNoMem, st)
      | Some new_stack =>
          filled ←
            match stack_entries st with
            | Some old => memcpy new_stack old (Z.to_nat (top st))
            | None => Ret new_stack
            end;
          Ret (done_ 0 (KResized arg),
               {| stack_entries := Some filled;
                  stack_size := to_uint8 arg;
                  top := top st |})
      end
    else Ret (fail_ EINVAL KInvalidSize, st)
  else Ret (fail_ EINVAL KInvalidCmd, st).

(** The part of [character_driver_exit] that touches the stack. *)
Definition character_driver_exit (st : stack) : stack :=
  match stack_entries st with
  | Some _ => {| stack_entries := None; stack_size := 0; top := 0 |}
  | None => st
  end.

(** ** Sequences of calls *)

Inductive call : Type :=
| Open (km : heap_oracle)
| Release
| Read (user_ok : bool) (len : Z)
| Write (user : option int32) (len : Z)
| Ioctl (km : heap_oracle) (cmd arg : Z).

Definition exec (c : call) (st : stack) : outcome (reply * stack) :=
  match c with
  | Open km => Ret (new_open km st)
  | Release => Ret (new_release st)
  | Read user_ok len => new_read st user_ok len
  | Write user len => new_write st user len
  | Ioctl km cmd arg => new_ioctl st km cmd arg
  end.

Fixpoint run (cs : list call) (st : stack) : outcome (list reply * stack) :=
  match cs with
  | [] => Ret ([], st)
  | c :: cs' =>
      p ← exec c st;
      q ← run cs' p.2;
      Ret (p.1 :: q.1, q.2)
  end.

(** The states the driver can be in: those a sequence of calls reaches
    from the initial values without running into undefined behaviour. *)
Inductive reachable : stack → Prop :=
| reachable_init : reachable init
| reachable_step c st r st' :
    reachable st → exec c st = Ret (r, st') → reachable st'.

(** ** The vocabulary of the specification *)

(** The error kinds the specification names.  The driver itself only
    returns negated error numbers; the log line of each failing return
    tells which condition was met. *)
Module Err.
Inductive kind : Type :=
| NotInitialized
| Empty
| Exhausted
| InvalidSize
| AllocationFailure
| UnsupportedCommand
| CopyFault.
End Err.

(** The error kind of a reply, read off the return site that produced it;
    [None] for the three successful returns.  No return site of the
    source reports a missing stack. *)
Definition error_of (r : reply) : option Err.kind :=
  match dmesg r with
  | KOpenNoMem | KResizeNoMem => Some Err.AllocationFailure
  | KEmpty => Some Err.Empty
  | KFull => Some Err.Exhausted
  | KInvalidSize => Some Err.InvalidSize
  | KInvalidCmd => Some Err.UnsupportedCommand
  | KCopyToUser | KCopyFromUser => Some Err.CopyFault
  | KOpened | KClosed | KRead | KWritten | KResized _ => None
  end.

(** A call succeeded when it did not return a negative number. *)
Definition succeeded (r : reply) : Prop := 0 ≤ ret r.

(** The stack exists while [stack_entries] is not [NULL]. *)
Definition exists_ (st : stack) : bool := bool_decide (is_Some (stack_entries st)).

(** I1 of the specification, with [stack_size] as the capacity. *)
Definition top_le_capacity (st : stack) : Prop := 0 ≤ top st ≤ stack_size st.

(** The live elements: the cells below [top]. *)
Definition live (st : stack) : list int32 :=
  match stack_entries st with
  | Some block => take (Z.to_nat (top st)) block
  | None => []
  end.

(** What holds of the globals in every state the driver reaches: both
    counters fit their type; without a block both are zero; with a block
    of [n] cells, [n] is a size the driver allocates, [stack_size] is [n]
    as a [uint8_t], and the cells below [top] lie inside the block. *)
Definition wf (st : stack) : Prop :=
  uint8 (stack_size st) ∧ uint8 (top st) ∧
  match stack_entries st with
  | None => stack_size st = 0 ∧ top st = 0
  | Some block =>
      (0 < length block ≤ 1024)%nat ∧
      stack_size st = to_uint8 (Z.of_nat (length block)) ∧
      top st ≤ Z.of_nat (length block)
  end.

(** ** Call sequences used in the statements *)

(** One write per value, in order, each from a readable user buffer. *)
Definition pushes (vs : list int32) (len : Z) : list call :=
  (λ v, Write (Some v) len) <$> vs.

(** [n] reads into a writable user buffer. *)
Definition pops (n : nat) (len : Z) : list call :=
  replicate n (Read true len).

(** The state after one [new_open] per allocator answer in [kms]. *)
Definition opens (kms : list heap_oracle) (st : stack) : stack :=
  foldl (λ s km, (new_open km s).2) st kms.

(** A fresh block that happens to hold zeroes. *)
Definition zeroed : nat → int32 := λ _, 0.

(** Reads and writes, the calls that go through the stack itself. *)
Definition is_read_or_write (c : call) : bool :=
  match c with
  | Read _ _ | Write _ _ => true
  | Open _ | Release | Ioctl _ _ _ => false
  end.

(** The values the calls of [cs] offer to push: those of its writes from
    a readable buffer. *)
Definition pushed (cs : list call) : list int32 :=
  omap (λ c, match c with Write (Some v) _ => Some v | _ => None end) cs.

(** ** The registration of the device *)

(** What the kernel holds for the module: the device number in the global
    [dev], its region, the character device [new_cdev], the class
    [dev_class] and the device node. *)
Record kernel : Type := Kernel {
  dev : Z;
  region_held : bool;
  cdev_live : bool;
  dev_class : bool;
  device_node : bool
}.

(** Before the module is loaded. *)
Definition unloaded : kernel :=
  {| dev := 0; region_held := false; cdev_live := false;
     dev_class := false; device_node := false |}.

(** The answers of the four kernel calls of [character_driver_init]:
    the device number [alloc_chrdev_region] hands out ([None] when it
    returns a negative number), whether [cdev_add] returns a non-negative
    number, and whether [class_create] and [device_create] return a
    pointer other than [NULL]. *)
Record init_oracle : Type := InitOracle {
  alloc_chrdev_region : option Z;
  cdev_add : bool;
  class_create : bool;
  device_create : bool
}.

(** The lines [character_driver_init] and [character_driver_exit] log. *)
Inductive imsg : Type :=
| INoMajor             (* "-- Unable to allocate major number." *)
| IMajorMinor (d : Z)  (* "-- Major = %d Minor = %d", of the number [d] *)
| INoCdev              (* "-- Cannot add device to the system." *)
| INoClass             (* "-- Cannot create class." *)
| INoDevice            (* "-- Cannot create device." *)
| ICreated             (* "-- Device created successfully." *)
| IRemoved.            (* "-- Device removed successfully." *)

Definition unregister_chrdev_region (k : kernel) : kernel :=
  {| dev := dev k; region_held := false; cdev_live := cdev_live k;
     dev_class := dev_class k; device_node := device_node k |}.

Definition cdev_del (k : kernel) : kernel :=
  {| dev := dev k; region_held := region_held k; cdev_live := false;
     dev_class := dev_class k; device_node := device_node k |}.

Definition class_destroy (k : kernel) : kernel :=
  {| dev := dev k; region_held := region_held k; cdev_live := cdev_live k;
     dev_class := false; device_node := device_node k |}.

Definition device_destroy (k : kernel) : kernel :=
  {| dev := dev k; region_held := region_held k; cdev_live := cdev_live k;
     dev_class := dev_class k; device_node := false |}.

(** The result is the returned number, the lines logged, and what the
    kernel holds afterwards. *)
Definition character_driver_init (o : init_oracle) (k : kernel)
  : Z * list imsg * kernel :=
  match alloc_chrdev_region o with
  | None => (-1, [INoMajor], k)
  | Some d =>
      let k1 := {| dev := d; region_held := true; cdev_live := cdev_live k;
                   dev_class := dev_class k; device_node := device_node k |} in
      if cdev_add o then
        let k2 := {| dev := d; region_held := true; cdev_live := true;
                     dev_class := dev_class k; device_node := device_node k |} in
        if class_create o then
          let k3 := {| dev := d; region_held := true; cdev_live := true;
                       dev_class := true; device_node := device_node k |} in
          if device_create o then
            (0, [IMajorMinor d; ICreated],
             {| dev := d; region_held := true; cdev_live := true;
                dev_class := true; device_node := true |})
          else
            (-1, [IMajorMinor d; INoDevice],
             unregister_chrdev_region (cdev_del (class_destroy k3)))
        else
          (-1, [IMajorMinor d; INoClass],
           unregister_chrdev_region (cdev_del k2))
      else
        (-1, [IMajorMinor d; INoCdev], unregister_chrdev_region k1)
  end.

(** The loaded module: its stack and its registration. *)
Record driver : Type := Driver {
  globals : stack;
  registered : kernel
}.

(** The whole of [character_driver_exit]: the stack is freed, then the
    node, the class, the character device and the region are given back,
    in that order. *)
Definition driver_exit (m : driver) : imsg * driver :=
  (IRemoved,
   {| globals := character_driver_exit (globals m);
      registered :=
        unregister_chrdev_region
          (cdev_del (class_destroy (device_destroy (registered m)))) |}).

(** Nothing of the module is left with the kernel. *)
Definition nothing_held (k : kernel) : Prop :=
  region_held k = false ∧ cdev_live k = false ∧
  dev_class k = false ∧ device_node k = false.


(** ** Basic facts *)

Lemma to_uint8_small z : uint8 z → to_uint8 z = z.
Proof. unfold uint8, to_uint8. intros. by rewrite Z.mod_small. Qed.

Lemma to_uint8_uint8 z : uint8 (to_uint8 z).
Proof. unfold uint8, to_uint8. apply Z.mod_pos_bound. lia. Qed.

Lemma to_uint8_le z : 0 ≤ z → to_uint8 z ≤ z.
Proof. unfold to_uint8. intros. apply Z.mod_le; lia. Qed.

Lemma length_kmalloc km n block :
  kmalloc km n = Some block → length block = Z.to_nat n.
Proof.
  unfold kmalloc. destruct km as [junk|]; simpl; [|done].
  intros [= <-]. by rewrite length_fmap, length_seq.
Qed.

Lemma kmalloc_Some junk n :
  kmalloc (Some junk) n = Some (junk <$> seq 0 (Z.to_nat n)).
Proof. done. Qed.

Lemma memcpy_Ret dst src n filled :
  memcpy dst src n = Ret filled →
  (n ≤ length src)%nat ∧ (n ≤ length dst)%nat ∧
  filled = take n src ++ drop n dst ∧ length filled = length dst.
Proof.
  unfold memcpy. case_decide as Hn; [|done]. intros [= <-].
  destruct Hn as [Hs Hd]. repeat split; try done.
  rewrite length_app, length_take, length_drop. lia.
Qed.

Lemma memcpy_overrun dst src n :
  (length dst < n)%nat → memcpy dst src n = Undefined OutOfBounds.
Proof. unfold memcpy. intros. case_decide; [lia|done]. Qed.

Lemma wf_init : wf init.
Proof. unfold wf, uint8, init; simpl. lia. Qed.

(** ** The operations one by one *)

Section Operations.
Context (st : stack) (Hwf : wf st).

Lemma wf_exists_block :
  top st < stack_size st → ∃ block,
    stack_entries st = Some block ∧
    (Z.to_nat (top st) < length block)%nat.
Proof using Hwf.
  destruct Hwf as (Hs & Ht & Hb). unfold uint8 in *.
  destruct (stack_entries st) as [block|]; [|lia].
  destruct Hb as (Hlen & Hsz & Htop). intros Hlt.
  exists block. split; [done|].
  assert (to_uint8 (Z.of_nat (length block)) ≤ Z.of_nat (length block))
    by (apply to_uint8_le; lia).
  lia.
Qed.

Lemma new_write_full user len :
  stack_size st ≤ top st →
  new_write st user len = Ret (fail_ ENOMEM KFull, st).
Proof.
  intros Hge. unfold new_write.
  destruct (Z.geb_spec (top st) (stack_size st)); [done|lia].
Qed.

Lemma new_write_room v len :
  top st < stack_size st → ∃ block,
    stack_entries st = Some block ∧
    (Z.to_nat (top st) < length block)%nat ∧
    new_write st (Some v) len =
      Ret (done_ sizeof_int32 KWritten,
           {| stack_entries := Some (<[Z.to_nat (top st) := v]> block);
              stack_size := stack_size st;
              top := top st + 1 |}).
Proof using Hwf.
  intros Hlt. destruct (wf_exists_block Hlt) as (block & Hb & Hin).
  exists block. split; [done|]. split; [done|].
  unfold new_write. rewrite Hb.
  destruct (Z.geb_spec (top st) (stack_size st)); [lia|].
  case_decide; [|lia].
  rewrite to_uint8_small; [done|].
  destruct Hwf as (Hs & Ht & _). unfold uint8 in *. lia.
Qed.

Lemma new_read_empty user_ok len :
  top st = 0 → new_read st user_ok len = Ret (fail_ EINVAL KEmpty, st).
Proof. intros Hz. unfold new_read. by rewrite Hz. Qed.

Lemma new_read_some len :
  top st ≠ 0 → ∃ block v,
    stack_entries st = Some block ∧
    block !! Z.to_nat (top st - 1) = Some v ∧
    new_read st true len =
      Ret ({| ret := sizeof_int32; dmesg := KRead; to_user := Some v |},
           {| stack_entries := Some block;
              stack_size := stack_size st;
              top := top st - 1 |}).
Proof using Hwf.
  intros Hnz. destruct Hwf as (Hs & Ht & Hb). unfold uint8 in *.
  destruct (stack_entries st) as [block|] eqn:Hblock; [|lia].
  destruct Hb as (Hlen & Hsz & Htop).
  destruct (lookup_lt_is_Some_2 block (Z.to_nat (top st - 1))) as [v Hv]; [lia|].
  exists block, v. split; [done|]. split; [done|].
  unfold new_read. rewrite Hblock, Hv.
  destruct (Z.eqb_spec (top st) 0); [done|].
  rewrite to_uint8_small; [done|]. unfold uint8. lia.
Qed.

Lemma new_open_wf km : wf (new_open km st).2.
Proof using Hwf.
  unfold new_open. destruct (stack_entries st) eqn:Hb; [done|].
  destruct (kmalloc km MEM_SIZE) as [block|] eqn:Hk; [|done].
  apply length_kmalloc in Hk. unfold wf; simpl.
  rewrite Hk. change (Z.to_nat MEM_SIZE) with 1024%nat.
  change (to_uint8 (Z.of_nat 1024)) with 0. change (to_uint8 MEM_SIZE) with 0.
  unfold uint8. lia.
Qed.

Lemma new_release_wf : wf (new_release st).2.
Proof using Hwf.
  unfold new_release. destruct (stack_entries st); [|done]. apply wf_init.
Qed.

Lemma new_read_wf user_ok len r st' :
  new_read st user_ok len = Ret (r, st') → wf st'.
Proof using Hwf.
  unfold new_read. destruct (Z.eqb_spec (top st) 0); [by intros [= _ <-]|].
  destruct (stack_entries st) as [block|] eqn:Hblock; [|done].
  destruct (block !! _) as [v|]; [|done].
  destruct user_ok; intros [= _ <-]; [|done].
  destruct Hwf as (Hs & Ht & Hb). rewrite Hblock in Hb.
  unfold wf; simpl. unfold uint8 in *.
  rewrite to_uint8_small by (unfold uint8; lia). lia.
Qed.

Lemma new_write_wf user len r st' :
  new_write st user len = Ret (r, st') → wf st'.
Proof using Hwf.
  unfold new_write.
  destruct (Z.geb_spec (top st) (stack_size st)); [by intros [= _ <-]|].
  destruct (stack_entries st) as [block|] eqn:Hblock; [|done].
  case_decide; [|done].
  destruct user as [v|]; intros [= _ <-]; [|done].
  destruct Hwf as (Hs & Ht & Hb). rewrite Hblock in Hb.
  unfold wf; simpl. rewrite length_insert. unfold uint8 in *.
  rewrite to_uint8_small by (unfold uint8; lia). lia.
Qed.

Lemma new_ioctl_inv km cmd arg r st' :
  new_ioctl st km cmd arg = Ret (r, st') →
  (0 ≤ ret r → cmd = 1 ∧ 0 < arg ≤ STACK_MAX_SIZE ∧ r = done_ 0 (KResized arg) ∧
     ∃ filled, stack_entries st' = Some filled ∧
       length filled = Z.to_nat arg ∧
       stack_size st' = to_uint8 arg ∧ top st' = top st ∧
       top st ≤ arg ∧ live st' = live st) ∧
  (ret r < 0 → st' = st).
Proof using Hwf.
  unfold new_ioctl. destruct (Z.eqb_spec cmd 1) as [->|];
    [|intros [= <- <-]; simpl; split; [unfold EINVAL; lia|done]].
  destruct (Z.ltb_spec 0 arg); simpl;
    [|intros [= <- <-]; simpl; split; [unfold EINVAL; lia|done]].
  destruct (Z.leb_spec arg STACK_MAX_SIZE); simpl;
    [|intros [= <- <-]; simpl; split; [unfold EINVAL; lia|done]].
  destruct (kmalloc km arg) as [new_stack|] eqn:Hk;
    [|intros [= <- <-]; simpl; split; [unfold ENOMEM; lia|done]].
  apply length_kmalloc in Hk.
  destruct Hwf as (Hs & Ht & Hb). unfold uint8 in *.
  destruct (stack_entries st) as [old|] eqn:Hold; simpl.
  - destruct (memcpy new_stack old _) as [filled|] eqn:Hm; simpl; [|done].
    apply memcpy_Ret in Hm as (Hsrc & Hdst & -> & Hlen).
    intros [= <- <-]; simpl. split; [|lia]. intros _.
    repeat split; try done; try lia.
    eexists. repeat split; try done; try lia.
    unfold live; simpl. rewrite Hold.
    rewrite take_app_le by (rewrite length_take; lia).
    by rewrite take_take, Nat.min_id.
  - intros [= <- <-]; simpl. split; [|lia]. intros _.
    repeat split; try done; try lia.
    exists new_stack. repeat split; try done; try lia.
    unfold live; simpl. rewrite Hold. destruct Hb as [_ ->]. done.
Qed.

Lemma new_ioctl_wf km cmd arg r st' :
  new_ioctl st km cmd arg = Ret (r, st') → wf st'.
Proof using Hwf.
  intros Hio. apply new_ioctl_inv in Hio as [Hok Hfail].
  destruct (Z.lt_ge_cases (ret r) 0) as [Hneg|Hpos].
  - by rewrite (Hfail Hneg).
  - destruct (Hok Hpos) as (_ & Harg & _ & filled & Hf & Hlen & Hsz & Htop & Hle & _).
    destruct Hwf as (Hs & Ht & _). unfold STACK_MAX_SIZE in *.
    unfold wf. rewrite Hf, Hsz, Htop, Hlen.
    split; [apply to_uint8_uint8|]. split; [done|].
    rewrite Z2Nat.id by lia. repeat split; try lia.
Qed.

Lemma exec_wf c r st' : exec c st = Ret (r, st') → wf st'.
Proof using Hwf.
  destruct c as [km| |ok len|user len|km cmd arg]; simpl.
  - intros [= Heq]. pose proof (new_open_wf km) as H. by rewrite Heq in H.
  - intros [= Heq]. pose proof new_release_wf as H. by rewrite Heq in H.
  - apply new_read_wf.
  - apply new_write_wf.
  - apply new_ioctl_wf.
Qed.
End Operations.

Lemma reachable_wf st : reachable st → wf st.
Proof.
  induction 1 as [|c st r st' _ IH Hexec]; [apply wf_init|].
  by eapply exec_wf.
Qed.

(** ** Runs *)

Lemma run_cons_Ret c cs st rs st' :
  run (c :: cs) st = Ret (rs, st') →
  ∃ r st1 rs1, exec c st = Ret (r, st1) ∧ run cs st1 = Ret (rs1, st') ∧ rs = r :: rs1.
Proof.
  cbn [run]. destruct (exec c st) as [[r st1]|] eqn:Hc; [|done].
  cbn. destruct (run cs st1) as [[rs1 st2]|] eqn:Hcs; [|done].
  cbn. intros [= <- <-]. by exists r, st1, rs1.
Qed.

Lemma run_snoc cs c st rs st1 r st' :
  run cs st = Ret (rs, st1) → exec c st1 = Ret (r, st') →
  run (cs ++ [c]) st = Ret (rs ++ [r], st').
Proof.
  revert st rs. induction cs as [|c0 cs IH]; intros st rs.
  - intros [= <- <-] Hc. cbn. by rewrite Hc.
  - intros (r0 & st0 & rs0 & Hc0 & Hcs & ->)%run_cons_Ret Hc.
    cbn [app run]. rewrite Hc0. cbn. by rewrite (IH _ _ Hcs Hc).
Qed.

Lemma run_wf cs st rs st' : wf st → run cs st = Ret (rs, st') → wf st'.
Proof.
  revert st rs. induction cs as [|c cs IH]; intros st rs Hwf.
  - by intros [= _ <-].
  - intros (r & st1 & rs1 & Hc & Hcs & _)%run_cons_Ret.
    eapply IH; [|done]. by eapply exec_wf.
Qed.

Lemma run_reachable cs st rs st' :
  reachable st → run cs st = Ret (rs, st') → reachable st'.
Proof.
  revert st rs. induction cs as [|c cs IH]; intros st rs Hre.
  - by intros [= _ <-].
  - intros (r & st1 & rs1 & Hc & Hcs & _)%run_cons_Ret.
    eapply IH; [|done]. by eapply reachable_step.
Qed.

(** ** Pushes followed by pops *)

(** A write that succeeds found room, stored the value at [top] and
    advanced [top] by one. *)
Lemma new_write_succeeded st v len r st' :
  wf st → new_write st (Some v) len = Ret (r, st') → succeeded r →
  top st < stack_size st ∧ ret r = sizeof_int32 ∧
  top st' = top st + 1 ∧ stack_size st' = stack_size st ∧
  live st' = live st ++ [v].
Proof.
  intros Hwf Hw Hok.
  destruct (Z.lt_ge_cases (top st) (stack_size st)) as [Hlt|Hge].
  - destruct (new_write_room st Hwf v len Hlt) as (block & Hb & Hin & Heq).
    rewrite Heq in Hw. injection Hw as <- <-. simpl.
    repeat split; try done.
    unfold live; simpl. rewrite Hb.
    destruct Hwf as (_ & Ht & _). unfold uint8 in Ht.
    replace (Z.to_nat (top st + 1)) with (S (Z.to_nat (top st))) by lia.
    erewrite take_S_r by (by apply list_lookup_insert_eq).
    by rewrite take_insert_ge by lia.
  - rewrite new_write_full in Hw by done. injection Hw as <- <-.
    unfold succeeded, fail_, ENOMEM in Hok; simpl in Hok. lia.
Qed.

(** A read from a stack whose live elements end in [v] hands [v] to the
    caller and drops it. *)
Lemma new_read_last st len l v :
  wf st → live st = l ++ [v] →
  ∃ st', new_read st true len =
           Ret ({| ret := sizeof_int32; dmesg := KRead; to_user := Some v |}, st') ∧
         top st' = top st - 1 ∧ stack_size st' = stack_size st ∧ live st' = l.
Proof.
  intros Hwf Hlive.
  assert (length (live st) = Z.to_nat (top st)) as Hlen.
  { destruct Hwf as (_ & Ht & Hb). unfold live, uint8 in *.
    destruct (stack_entries st) as [block|]; simpl.
    - rewrite length_take. lia.
    - destruct Hb as [_ ->]. done. }
  rewrite Hlive, length_app in Hlen; simpl in Hlen.
  assert (top st ≠ 0) as Hnz by lia.
  destruct (new_read_some st Hwf len Hnz) as (block & w & Hb & Hw & Heq).
  unfold live in Hlive. rewrite Hb in Hlive.
  assert (Z.to_nat (top st - 1) = length l) as Hidx by lia.
  assert (w = v) as ->.
  { assert ((l ++ [v]) !! Z.to_nat (top st - 1) = Some w) as Hl.
    { rewrite <- Hlive. rewrite lookup_take_lt by lia. done. }
    rewrite Hidx, list_lookup_middle in Hl by done. by injection Hl. }
  eexists. split; [exact Heq|]. simpl. repeat split; try done.
  unfold live; simpl.
  replace (Z.to_nat (top st - 1))
    with (Z.to_nat (top st - 1) `min` Z.to_nat (top st))%nat at 1 by lia.
  rewrite <- take_take, Hlive, Hidx. by rewrite take_app_length.
Qed.

Lemma pushes_then_pops vs : ∀ st len len' rs st',
  wf st →
  run (pushes vs len) st = Ret (rs, st') →
  Forall succeeded rs →
  ∃ rs' st'',
    run (pops (length vs) len') st' = Ret (rs', st'') ∧
    to_user <$> rs' = Some <$> reverse vs ∧
    Forall (λ r, ret r = sizeof_int32 ∧ dmesg r = KRead) rs' ∧
    top st'' = top st ∧ stack_size st'' = stack_size st ∧
    live st'' = live st ∧ wf st''.
Proof.
  induction vs as [|v vs IH]; intros st len len' rs st' Hwf Hrun Hok.
  - injection Hrun as <- <-. exists [], st.
    split; [done|]. split; [done|]. split; [apply Forall_nil_2|]. done.
  - apply run_cons_Ret in Hrun as (r1 & st1 & rs1 & Hw & Hrun & ->).
    apply Forall_cons_1 in Hok as [Hok1 Hok].
    cbn [exec] in Hw.
    destruct (new_write_succeeded _ _ _ _ _ Hwf Hw Hok1)
      as (_ & _ & Htop1 & Hsz1 & Hlive1).
    assert (wf st1) as Hwf1 by (by eapply new_write_wf).
    destruct (IH st1 len len' rs1 st' Hwf1 Hrun Hok)
      as (rs' & st2 & Hpops & Hout & Hret & Htop2 & Hsz2 & Hlive2 & Hwf2).
    rewrite Hlive1 in Hlive2.
    destruct (new_read_last st2 len' _ _ Hwf2 Hlive2)
      as (st3 & Hread & Htop3 & Hsz3 & Hlive3).
    exists (rs' ++ [{| ret := sizeof_int32; dmesg := KRead; to_user := Some v |}]), st3.
    split.
    { unfold pops. cbn [length]. rewrite replicate_S_end.
      apply run_snoc with st2; [exact Hpops|exact Hread]. }
    split.
    { rewrite fmap_app, Hout, reverse_cons, fmap_app. done. }
    split.
    { apply Forall_app. split; [done|]. by apply Forall_singleton. }
    split; [lia|]. split; [congruence|]. split; [done|].
    by eapply new_read_wf.
Qed.

(** ** Resizing *)

(** A resize below [top] copies [top] cells into a block of [arg] cells:
    the copy runs past the end of the new block. *)
Lemma new_ioctl_below_top st junk arg old :
  stack_entries st = Some old →
  0 < arg ≤ STACK_MAX_SIZE → arg < top st →
  new_ioctl st (Some junk) 1 arg = Undefined OutOfBounds.
Proof.
  intros Hold Harg Hlt. unfold new_ioctl. cbn [Z.eqb Pos.eqb].
  destruct (Z.ltb_spec 0 arg); [|lia].
  destruct (Z.leb_spec arg STACK_MAX_SIZE); [|lia]. cbn [andb].
  rewrite kmalloc_Some, Hold, memcpy_overrun; [done|].
  rewrite length_fmap, length_seq. lia.
Qed.

(** No return of [new_ioctl] changes [top]. *)
Lemma new_ioctl_keeps_top st km cmd arg r st' :
  new_ioctl st km cmd arg = Ret (r, st') → top st' = top st.
Proof.
  unfold new_ioctl.
  destruct (cmd =? 1); [|by intros [= _ <-]].
  destruct (_ && _); [|by intros [= _ <-]].
  destruct (kmalloc km arg) as [new_stack|]; [|by intros [= _ <-]].
  destruct (stack_entries st) as [old|]; cbn.
  - destruct (memcpy new_stack old _); cbn; [|done]. by intros [= _ <-].
  - by intros [= _ <-].
Qed.

(** A resize to [top] or more, with memory available, keeps the live
    elements where they are and stores the new size as a [uint8_t]. *)
Lemma new_ioctl_from_top st junk arg :
  wf st → 0 < arg ≤ STACK_MAX_SIZE → top st ≤ arg →
  ∃ block,
    new_ioctl st (Some junk) 1 arg =
      Ret (done_ 0 (KResized arg),
           {| stack_entries := Some block;
              stack_size := to_uint8 arg;
              top := top st |}) ∧
    length block = Z.to_nat arg ∧
    take (Z.to_nat (top st)) block = live st.
Proof.
  intros Hwf Harg Hle.
  assert (∃ p, new_ioctl st (Some junk) 1 arg = Ret p) as [[r st'] Hio].
  { unfold new_ioctl. cbn [Z.eqb Pos.eqb].
    destruct (Z.ltb_spec 0 arg); [|lia].
    destruct (Z.leb_spec arg STACK_MAX_SIZE); [|lia]. cbn [andb].
    rewrite kmalloc_Some.
    destruct (stack_entries st) as [old|] eqn:Hold; cbn; [|by eexists].
    unfold memcpy. case_decide as Hn; cbn; [by eexists|].
    destruct Hwf as (_ & Ht & Hb). rewrite Hold in Hb. unfold uint8 in Ht.
    exfalso. apply Hn. rewrite length_fmap, length_seq. lia. }
  pose proof (new_ioctl_inv st Hwf _ _ _ _ _ Hio) as [Hok Hfail].
  assert (0 ≤ ret r) as Hpos.
  { destruct (Z.lt_ge_cases (ret r) 0) as [Hneg|]; [|done].
    exfalso. revert Hio. unfold new_ioctl. cbn [Z.eqb Pos.eqb].
    destruct (Z.ltb_spec 0 arg); [|lia].
    destruct (Z.leb_spec arg STACK_MAX_SIZE); [|lia]. cbn [andb].
    rewrite kmalloc_Some. destruct (stack_entries st) as [old|]; cbn.
    - destruct (memcpy _ old _); cbn; [|done].
      intros [= <- _]. simpl in Hneg. lia.
    - intros [= <- _]. simpl in Hneg. lia. }
  destruct (Hok Hpos) as (_ & _ & -> & filled & Hf & Hlen & Hsz & Htop & _ & Hlive).
  exists filled. destruct st' as [e s t]; simpl in *. subst.
  split; [done|]. split; [done|]. exact Hlive.
Qed.

(** * The properties of the specification *)

(** ** Shrinking below the live elements *)

(** C1. A resize to a capacity below [top] should keep the elements at
    indices [0, newCapacity) and set [top] to the new capacity.  In the
    driver the copy still moves [top] cells, into a block that has only
    [newCapacity] of them: after a session begins, the stack is resized to
    5 and filled with five values, the resize to 3 writes two cells past
    the end of the new block. *)
Theorem resize_below_top_overruns :
  let st := {| stack_entries := Some [1; 2; 3; 4; 5]; stack_size := 5; top := 5 |} in
  (∃ rs, run ([Open (Some zeroed); Ioctl (Some zeroed) 1 5] ++ pushes [1; 2; 3; 4; 5] 4) init
           = Ret (rs, st)) ∧
  wf st ∧
  new_ioctl st (Some zeroed) 1 3 = Undefined OutOfBounds.
Proof.
  split; [eexists; vm_compute; reflexivity|].
  split; [|reflexivity].
  unfold wf, uint8; cbn. repeat split; lia.
Qed.

(** ** The default capacity *)

(** C2. After a session begins on a missing stack the block has 1024
    cells and [top] is 0, and 1024 pushes should succeed.  [stack_size] is
    a [uint8_t], so the 1024 assigned to it is stored as 0 and the very
    first push is refused as if the stack were full. *)
Theorem open_then_first_push_is_refused junk v len :
  let st1 := (new_open (Some junk) init).2 in
  (new_open (Some junk) init).1 = done_ 0 KOpened ∧
  (∃ block, stack_entries st1 = Some block ∧ length block = 1024%nat) ∧
  top st1 = 0 ∧ stack_size st1 = 0 ∧
  new_write st1 (Some v) len = Ret (fail_ ENOMEM KFull, st1) ∧
  error_of (fail_ ENOMEM KFull) = Some Err.Exhausted.
Proof.
  cbn. split; [done|]. split; [|done].
  eexists. split; [done|]. by rewrite length_fmap, length_seq.
Qed.

(** ** The bound on [top] *)

(** C3. [0 ≤ top ≤ capacity] should hold between any two operations.  A
    resize stores its argument in the [uint8_t] [stack_size]: with one
    element on a stack of capacity 1, a resize to 256 succeeds and leaves
    [stack_size = 0] below [top = 1]. *)
Theorem resize_256_breaks_top_le_capacity :
  let st := {| stack_entries := Some [7]; stack_size := 1; top := 1 |} in
  let st' := {| stack_entries := Some (7 :: replicate 255 0); stack_size := 0; top := 1 |} in
  (∃ rs, run [Open (Some zeroed); Ioctl (Some zeroed) 1 1; Write (Some 7) 4] init
           = Ret (rs, st)) ∧
  top_le_capacity st ∧
  new_ioctl st (Some zeroed) 1 256 = Ret (done_ 0 (KResized 256), st') ∧
  ¬ top_le_capacity st'.
Proof.
  split; [eexists; vm_compute; reflexivity|].
  split; [unfold top_le_capacity; cbn; lia|].
  split; [vm_compute; reflexivity|].
  unfold top_le_capacity; cbn. lia.
Qed.


(** ** Operations on a missing stack *)

(** C4, as stated: on a missing stack a push and a pop should both report
    [NotInitialized].  At the initial state neither does. *)
Lemma missing_stack_not_reported :
  wf init ∧ exists_ init = false ∧
  new_write init (Some 7) 4 = Ret (fail_ ENOMEM KFull, init) ∧
  error_of (fail_ ENOMEM KFull) ≠ Some Err.NotInitialized ∧
  new_read init true 4 = Ret (fail_ EINVAL KEmpty, init) ∧
  error_of (fail_ EINVAL KEmpty) ≠ Some Err.NotInitialized.
Proof.
  split; [apply wf_init|]. by repeat split.
Qed.

(** C4, amended: on a missing stack a push is refused as on a full stack
    ([-ENOMEM], [Exhausted]) and a pop as on an empty one ([-EINVAL],
    [Empty]); neither changes the state. *)
Theorem missing_stack_full_and_empty st user user_ok len len' :
  wf st → exists_ st = false →
  new_write st user len = Ret (fail_ ENOMEM KFull, st) ∧
  error_of (fail_ ENOMEM KFull) = Some Err.Exhausted ∧
  new_read st user_ok len' = Ret (fail_ EINVAL KEmpty, st) ∧
  error_of (fail_ EINVAL KEmpty) = Some Err.Empty.
Proof.
  intros (_ & _ & Hb) Hex. unfold exists_ in Hex.
  destruct (stack_entries st) as [block|] eqn:Hblock.
  - exfalso. apply bool_decide_eq_false in Hex. apply Hex. by eexists.
  - destruct Hb as [Hs Ht].
    split; [apply new_write_full; lia|]. split; [done|].
    split; [by apply new_read_empty|done].
Qed.

Lemma missing_stack_full_and_empty_witness :
  wf init ∧ exists_ init = false ∧
  new_write init (Some 7) 4 = Ret (fail_ ENOMEM KFull, init) ∧
  error_of (fail_ ENOMEM KFull) = Some Err.Exhausted ∧
  new_read init true 4 = Ret (fail_ EINVAL KEmpty, init) ∧
  error_of (fail_ EINVAL KEmpty) = Some Err.Empty.
Proof.
  split; [apply wf_init|]. split; [reflexivity|].
  apply (missing_stack_full_and_empty init (Some 7) true 4 4);
    [apply wf_init|reflexivity].
Defined.

(** ** Growing *)

(** C5. A resize to [newCapacity ≥ top] should keep the live elements and
    leave the capacity equal to [newCapacity].  The elements are kept, but
    the capacity is stored in a [uint8_t]: with [10; 20] on a stack of
    capacity 2, a resize to 256 succeeds, keeps both values, and leaves
    [stack_size = 0], so that the next push is refused. *)
Theorem resize_256_stores_capacity_zero :
  let st := {| stack_entries := Some [10; 20]; stack_size := 2; top := 2 |} in
  let st' := {| stack_entries := Some (10 :: 20 :: replicate 254 0);
                stack_size := 0; top := 2 |} in
  (∃ rs, run ([Open (Some zeroed); Ioctl (Some zeroed) 1 2] ++ pushes [10; 20] 4) init
           = Ret (rs, st)) ∧
  new_ioctl st (Some zeroed) 1 256 = Ret (done_ 0 (KResized 256), st') ∧
  live st' = [10; 20] ∧
  stack_size st' ≠ 256 ∧
  new_write st' (Some 30) 4 = Ret (fail_ ENOMEM KFull, st').
Proof.
  split; [eexists; vm_compute; reflexivity|].
  split; [vm_compute; reflexivity|].
  split; [reflexivity|]. split; [done|]. reflexivity.
Qed.

(** ** Last in, first out *)

(** C6. On any stack the driver can hold, when the values [vs] are
    pushed one after the other and every push succeeds, as many pops all
    succeed and hand back the values of [vs] last to first; the live
    elements are then what they were before the pushes. *)
Theorem lifo_order st vs len len' rs st' :
  wf st →
  run (pushes vs len) st = Ret (rs, st') →
  Forall succeeded rs →
  ∃ rs' st'',
    run (pops (length vs) len') st' = Ret (rs', st'') ∧
    to_user <$> rs' = Some <$> reverse vs ∧
    Forall succeeded rs' ∧
    Forall (λ r, error_of r = None) rs' ∧
    live st'' = live st.
Proof.
  intros Hwf Hrun Hok.
  destruct (pushes_then_pops vs st len len' rs st' Hwf Hrun Hok)
    as (rs' & st'' & Hpops & Hout & Hret & _ & _ & Hlive & _).
  exists rs', st''. split; [done|]. split; [done|].
  split; [|split; [|done]]; (eapply Forall_impl; [|exact Hret]); intros r [Hr Hm].
  - unfold succeeded. rewrite Hr. done.
  - unfold error_of. by rewrite Hm.
Qed.

Lemma lifo_order_witness :
  wf {| stack_entries := Some [0; 0; 0]; stack_size := 3; top := 0 |} ∧
  run (pushes [1; 2] 4) {| stack_entries := Some [0; 0; 0]; stack_size := 3; top := 0 |}
    = Ret ([done_ sizeof_int32 KWritten; done_ sizeof_int32 KWritten],
           {| stack_entries := Some [1; 2; 0]; stack_size := 3; top := 2 |}) ∧
  Forall succeeded [done_ sizeof_int32 KWritten; done_ sizeof_int32 KWritten] ∧
  ∃ rs' st'',
    run (pops 2 4) {| stack_entries := Some [1; 2; 0]; stack_size := 3; top := 2 |}
      = Ret (rs', st'') ∧
    to_user <$> rs' = [Some 2; Some 1] ∧
    Forall succeeded rs' ∧
    Forall (λ r, error_of r = None) rs' ∧
    live st'' = [].
Proof.
  assert (wf {| stack_entries := Some [0; 0; 0]; stack_size := 3; top := 0 |}) as Hwf.
  { unfold wf, uint8; cbn. repeat split; lia. }
  assert (Forall succeeded [done_ sizeof_int32 KWritten; done_ sizeof_int32 KWritten])
    as Hok.
  { repeat (apply Forall_cons_2; [unfold succeeded, sizeof_int32; cbn; lia|]).
    apply Forall_nil_2. }
  split; [exact Hwf|]. split; [reflexivity|]. split; [exact Hok|].
  exact (lifo_order _ [1; 2] 4 4 _ _ Hwf eq_refl Hok).
Defined.

(** ** Rejected sizes *)

(** C7. In every state, a resize whose argument is 0 or above
    [STACK_MAX_SIZE] fails with [-EINVAL] on the invalid-size return and
    leaves [stack_size], [top] and the block as they were. *)
Theorem resize_invalid_size_rejected st km arg :
  arg = 0 ∨ STACK_MAX_SIZE < arg →
  new_ioctl st km 1 arg = Ret (fail_ EINVAL KInvalidSize, st) ∧
  error_of (fail_ EINVAL KInvalidSize) = Some Err.InvalidSize ∧
  ¬ succeeded (fail_ EINVAL KInvalidSize).
Proof.
  intros Harg. split; [|split; [done|]].
  - unfold new_ioctl. cbn [Z.eqb Pos.eqb].
    destruct (Z.ltb_spec 0 arg); [|done].
    destruct (Z.leb_spec arg STACK_MAX_SIZE); [lia|done].
  - unfold succeeded, fail_, EINVAL; cbn. lia.
Qed.

Lemma resize_invalid_size_rejected_witness :
  (2000 = 0 ∨ STACK_MAX_SIZE < 2000) ∧
  new_ioctl {| stack_entries := Some [1; 2; 3]; stack_size := 3; top := 2 |}
            (Some zeroed) 1 2000
    = Ret (fail_ EINVAL KInvalidSize,
           {| stack_entries := Some [1; 2; 3]; stack_size := 3; top := 2 |}) ∧
  error_of (fail_ EINVAL KInvalidSize) = Some Err.InvalidSize ∧
  ¬ succeeded (fail_ EINVAL KInvalidSize).
Proof.
  assert (2000 = 0 ∨ STACK_MAX_SIZE < 2000) as Harg by (right; reflexivity).
  split; [exact Harg|].
  exact (resize_invalid_size_rejected _ _ 2000 Harg).
Defined.

(** ** The end of a session *)

Lemma opens_wf kms st : wf st → wf (opens kms st).
Proof.
  revert st. induction kms as [|km kms IH]; intros st Hwf; [done|].
  cbn. apply IH. by apply new_open_wf.
Qed.

Lemma new_release_init st : wf st → new_release st = (done_ 0 KClosed, init).
Proof.
  intros (_ & _ & Hb). unfold new_release.
  destruct st as [[block|] size t]; cbn in *; [done|].
  destruct Hb as [-> ->]. done.
Qed.

(** C8. From every state the driver can be in, and after any number of
    further session begins, one session end returns 0 and leaves no
    stack: [stack_entries] is [NULL], [stack_size] and [top] are 0. *)
Theorem session_end_clears st kms :
  wf st →
  new_release (opens kms st) = (done_ 0 KClosed, init) ∧
  succeeded (done_ 0 KClosed) ∧ error_of (done_ 0 KClosed) = None ∧
  exists_ init = false ∧ stack_size init = 0 ∧ top init = 0.
Proof.
  intros Hwf. split; [|by repeat split].
  by apply new_release_init, opens_wf.
Qed.

Lemma session_end_clears_witness :
  wf {| stack_entries := Some [1; 2; 3]; stack_size := 3; top := 2 |} ∧
  new_release (opens [Some zeroed; None; Some zeroed]
                 {| stack_entries := Some [1; 2; 3]; stack_size := 3; top := 2 |})
    = (done_ 0 KClosed, init) ∧
  succeeded (done_ 0 KClosed) ∧ error_of (done_ 0 KClosed) = None ∧
  exists_ init = false ∧ stack_size init = 0 ∧ top init = 0.
Proof.
  assert (wf {| stack_entries := Some [1; 2; 3]; stack_size := 3; top := 2 |}) as Hwf.
  { unfold wf, uint8; cbn. repeat split; lia. }
  split; [exact Hwf|].
  exact (session_end_clears _ [Some zeroed; None; Some zeroed] Hwf).
Defined.

(** ** Eight-bit counters *)

(** C9. [stack_size] and [top] are [uint8_t]: after a resize to [n] that
    succeeds, [stack_size] is [n mod 256] and both counters lie below 256.
    For [n] one of 256, 512 and 1024 the stored capacity is 0, and every
    push is then refused as on a full stack. *)
Theorem resize_capacity_mod_256 st km n r st' :
  wf st → 0 < n ≤ STACK_MAX_SIZE →
  new_ioctl st km 1 n = Ret (r, st') → succeeded r →
  stack_size st' = n mod 256 ∧
  uint8 (stack_size st') ∧ uint8 (top st') ∧
  (n = 256 ∨ n = 512 ∨ n = 1024 →
   stack_size st' = 0 ∧
   ∀ user len, new_write st' user len = Ret (fail_ ENOMEM KFull, st')).
Proof.
  intros Hwf Hn Hio Hok.
  pose proof (new_ioctl_wf st Hwf _ _ _ _ _ Hio) as Hwf'.
  destruct (new_ioctl_inv st Hwf _ _ _ _ _ Hio) as [Hinv _].
  destruct (Hinv Hok) as (_ & _ & _ & _ & _ & _ & Hsz & _).
  unfold to_uint8 in Hsz.
  destruct Hwf' as (Hs & Ht & _).
  split; [done|]. split; [done|]. split; [done|].
  intros Hcases.
  assert (stack_size st' = 0) as Hz.
  { rewrite Hsz. by destruct Hcases as [->|[->| ->]]. }
  split; [done|]. intros user len.
  apply new_write_full. unfold uint8 in Ht. lia.
Qed.

Lemma resize_capacity_mod_256_witness :
  wf init ∧ 0 < 256 ≤ STACK_MAX_SIZE ∧
  new_ioctl init (Some zeroed) 1 256
    = Ret (done_ 0 (KResized 256),
           {| stack_entries := Some (replicate 256 0); stack_size := 0; top := 0 |}) ∧
  succeeded (done_ 0 (KResized 256)) ∧
  stack_size {| stack_entries := Some (replicate 256 0); stack_size := 0; top := 0 |}
    = 256 mod 256 ∧
  uint8 0 ∧ uint8 0 ∧
  (256 = 256 ∨ 256 = 512 ∨ 256 = 1024 →
   0 = 0 ∧
   ∀ user len,
     new_write {| stack_entries := Some (replicate 256 0); stack_size := 0; top := 0 |}
               user len
       = Ret (fail_ ENOMEM KFull,
              {| stack_entries := Some (replicate 256 0); stack_size := 0; top := 0 |})).
Proof.
  assert (0 < 256 ≤ STACK_MAX_SIZE) as Hn by (unfold STACK_MAX_SIZE; lia).
  assert (succeeded (done_ 0 (KResized 256))) as Hok by (unfold succeeded; cbn; lia).
  assert (new_ioctl init (Some zeroed) 1 256
          = Ret (done_ 0 (KResized 256),
                 {| stack_entries := Some (replicate 256 0); stack_size := 0; top := 0 |}))
    as Hio by (vm_compute; reflexivity).
  split; [exact wf_init|]. split; [exact Hn|]. split; [exact Hio|].
  split; [exact Hok|].
  exact (resize_capacity_mod_256 init (Some zeroed) 256 _ _ wf_init Hn Hio Hok).
Defined.

(** ** Resizing a missing stack *)

(** C10. A resize to [n] in (0, STACK_MAX_SIZE] on a missing stack is
    never answered with [NotInitialized]; when the allocator has memory it
    succeeds, leaves a block of [n] cells behind, so that the stack
    exists, and [top] stays 0. *)
Theorem resize_creates_missing_stack st junk n :
  wf st → exists_ st = false → 0 < n ≤ STACK_MAX_SIZE →
  (∃ st', new_ioctl st (Some junk) 1 n = Ret (done_ 0 (KResized n), st') ∧
          succeeded (done_ 0 (KResized n)) ∧
          exists_ st' = true ∧
          (∃ block, stack_entries st' = Some block ∧ length block = Z.to_nat n) ∧
          top st' = 0) ∧
  (∀ km r st', new_ioctl st km 1 n = Ret (r, st') →
               error_of r ≠ Some Err.NotInitialized).
Proof.
  intros Hwf Hex Hn. split.
  - assert (top st = 0) as Htop.
    { destruct Hwf as (_ & _ & Hb). unfold exists_ in Hex.
      destruct (stack_entries st); [|by destruct Hb].
      apply bool_decide_eq_false in Hex. destruct Hex. by eexists. }
    destruct (new_ioctl_from_top st junk n Hwf Hn) as (block & Hio & Hlen & _); [lia|].
    eexists. split; [exact Hio|].
    split; [unfold succeeded; cbn; lia|].
    split; [by apply bool_decide_eq_true; eexists|].
    split; [by exists block|done].
  - intros km r st' Hio.
    destruct (new_ioctl_inv st Hwf _ _ _ _ _ Hio) as [Hok Hfail].
    revert Hio. unfold new_ioctl. cbn [Z.eqb Pos.eqb].
    destruct (_ && _); [|by intros [= <- _]].
    destruct (kmalloc km n); [|by intros [= <- _]].
    destruct (stack_entries st) as [old|]; cbn.
    + destruct (memcpy _ old _); cbn; [|done]. by intros [= <- _].
    + by intros [= <- _].
Qed.

Lemma resize_creates_missing_stack_witness :
  wf init ∧ exists_ init = false ∧ 0 < 3 ≤ STACK_MAX_SIZE ∧
  (∃ st', new_ioctl init (Some zeroed) 1 3 = Ret (done_ 0 (KResized 3), st') ∧
          succeeded (done_ 0 (KResized 3)) ∧
          exists_ st' = true ∧
          (∃ block, stack_entries st' = Some block ∧ length block = 3%nat) ∧
          top st' = 0) ∧
  (∀ km r st', new_ioctl init km 1 3 = Ret (r, st') →
               error_of r ≠ Some Err.NotInitialized).
Proof.
  assert (0 < 3 ≤ STACK_MAX_SIZE) as Hn by (unfold STACK_MAX_SIZE; lia).
  split; [exact wf_init|]. split; [reflexivity|]. split; [exact Hn|].
  exact (resize_creates_missing_stack init zeroed 3 wf_init eq_refl Hn).
Defined.

(** * Further properties of the driver *)

(** ** Helper facts *)

Lemma length_live st : wf st → length (live st) = Z.to_nat (top st).
Proof.
  intros (_ & Ht & Hb). unfold live, uint8 in *.
  destruct (stack_entries st) as [block|].
  - rewrite length_take. lia.
  - destruct Hb as [_ ->]. done.
Qed.

Lemma run_cons c cs st r st1 rs st' :
  exec c st = Ret (r, st1) → run cs st1 = Ret (rs, st') →
  run (c :: cs) st = Ret (r :: rs, st').
Proof. intros Hc Hcs. cbn [run]. rewrite Hc. cbn. by rewrite Hcs. Qed.

(** ** What every reachable state satisfies *)

(** X1. Whatever calls were made since the module was loaded, if none of
    them ran into undefined behaviour then the globals satisfy [wf]; in
    particular the live elements are exactly [top] many, and never more
    than 255, whatever capacity was asked for. *)
Theorem run_from_init_invariant cs rs st :
  run cs init = Ret (rs, st) →
  wf st ∧ length (live st) = Z.to_nat (top st) ∧ (length (live st) ≤ 255)%nat.
Proof.
  intros Hrun. pose proof (run_wf _ _ _ _ wf_init Hrun) as Hwf.
  split; [done|]. rewrite length_live by done. split; [done|].
  destruct Hwf as (_ & Ht & _). unfold uint8 in Ht. lia.
Qed.

Lemma run_from_init_invariant_witness :
  run [Open (Some zeroed); Ioctl (Some zeroed) 1 2; Write (Some 10) 4] init
    = Ret ([done_ 0 KOpened; done_ 0 (KResized 2); done_ sizeof_int32 KWritten],
           {| stack_entries := Some [10; 0]; stack_size := 2; top := 1 |}) ∧
  wf {| stack_entries := Some [10; 0]; stack_size := 2; top := 1 |} ∧
  length (live {| stack_entries := Some [10; 0]; stack_size := 2; top := 1 |})
    = Z.to_nat 1 ∧
  le (length (live {| stack_entries := Some [10; 0]; stack_size := 2; top := 1 |})) 255.
Proof.
  assert (run [Open (Some zeroed); Ioctl (Some zeroed) 1 2; Write (Some 10) 4] init
          = Ret ([done_ 0 KOpened; done_ 0 (KResized 2); done_ sizeof_int32 KWritten],
                 {| stack_entries := Some [10; 0]; stack_size := 2; top := 1 |}))
    as Hrun by (vm_compute; reflexivity).
  split; [exact Hrun|].
  exact (run_from_init_invariant _ _ _ Hrun).
Defined.

(** ** Memory safety *)

(** X2. In a state satisfying [wf], the only call that leaves the bounds
    of a block is a resize, with memory available, to a size below [top]:
    its copy overruns the new block.  Opens, releases, reads, writes and
    every other resize stay within their blocks and never go through the
    [NULL] pointer. *)
Theorem undefined_iff_resize_below_top c st f :
  wf st →
  exec c st = Undefined f ↔
  ∃ junk arg, c = Ioctl (Some junk) 1 arg ∧ 0 < arg < top st ∧ f = OutOfBounds.
Proof.
  intros Hwf. split.
  - destruct c as [km| |ok len|user len|km cmd arg]; cbn; try done.
    + unfold new_read. destruct (Z.eqb_spec (top st) 0); [done|].
      destruct Hwf as (_ & Ht & Hb). unfold uint8 in Ht.
      destruct (stack_entries st) as [block|]; [|lia].
      destruct (lookup_lt_is_Some_2 block (Z.to_nat (top st - 1))) as [v ->]; [lia|].
      by destruct ok.
    + unfold new_write.
      destruct (Z.geb_spec (top st) (stack_size st)) as [|Hlt]; [done|].
      destruct (wf_exists_block st Hwf) as (block & -> & Hin); [lia|].
      case_decide; [|lia]. by destruct user.
    + unfold new_ioctl. destruct (Z.eqb_spec cmd 1) as [->|]; [|done].
      destruct (Z.ltb_spec 0 arg); [|done].
      destruct (Z.leb_spec arg STACK_MAX_SIZE); [|done]. cbn [andb].
      destruct km as [junk|]; [|done]. rewrite kmalloc_Some.
      destruct Hwf as (_ & Ht & Hb). unfold uint8 in Ht.
      destruct (stack_entries st) as [old|]; cbn; [|done].
      unfold memcpy. case_decide as Hn; cbn; [done|].
      intros [= <-]. exists junk, arg. split; [done|]. split; [|done].
      rewrite length_fmap, length_seq in Hn. lia.
  - intros (junk & arg & -> & Harg & ->). cbn [exec].
    destruct Hwf as (_ & Ht & Hb). unfold uint8 in Ht.
    destruct (stack_entries st) as [old|] eqn:Hold; [|lia].
    apply new_ioctl_below_top with old; [done| |lia].
    unfold STACK_MAX_SIZE. lia.
Qed.

Lemma undefined_iff_resize_below_top_witness :
  wf {| stack_entries := Some [1; 2; 3; 4; 5]; stack_size := 5; top := 5 |} ∧
  (exec (Ioctl (Some zeroed) 1 3)
        {| stack_entries := Some [1; 2; 3; 4; 5]; stack_size := 5; top := 5 |}
     = Undefined OutOfBounds ↔
   ∃ junk arg, Ioctl (Some zeroed) 1 3 = Ioctl (Some junk) 1 arg ∧
               0 < arg < 5 ∧ OutOfBounds = OutOfBounds).
Proof.
  assert (wf {| stack_entries := Some [1; 2; 3; 4; 5]; stack_size := 5; top := 5 |})
    as Hwf.
  { unfold wf, uint8; cbn. repeat split; lia. }
  split; [exact Hwf|].
  exact (undefined_iff_resize_below_top (Ioctl (Some zeroed) 1 3) _ OutOfBounds Hwf).
Defined.

(** ** One push, one pop *)

(** X3. A write of a readable value to a stack with room returns 4,
    appends the value to the live elements and changes neither the
    capacity nor the size of the block; a write to a stack without room
    returns [-ENOMEM] and changes nothing, whatever the user buffer is. *)
Theorem new_write_push st v user len :
  wf st →
  (top st < stack_size st →
   ∃ block st',
     stack_entries st = Some block ∧
     new_write st (Some v) len = Ret (done_ sizeof_int32 KWritten, st') ∧
     live st' = live st ++ [v] ∧
     top st' = top st + 1 ∧ stack_size st' = stack_size st ∧
     stack_entries st' = Some (<[Z.to_nat (top st) := v]> block)) ∧
  (stack_size st ≤ top st →
   new_write st user len = Ret (fail_ ENOMEM KFull, st)).
Proof.
  intros Hwf. split; [|apply new_write_full].
  intros Hlt. destruct (new_write_room st Hwf v len Hlt) as (block & Hb & Hin & Heq).
  eexists block, _. split; [done|]. split; [exact Heq|].
  assert (succeeded (done_ sizeof_int32 KWritten)) as Hok
    by (unfold succeeded, sizeof_int32; cbn; lia).
  destruct (new_write_succeeded _ _ _ _ _ Hwf Heq Hok) as (_ & _ & _ & _ & Hlive).
  by repeat split.
Qed.

Lemma new_write_push_witness :
  wf {| stack_entries := Some [10; 0]; stack_size := 2; top := 1 |} ∧
  (1 < 2 →
   ∃ block st',
     Some [10; 0] = Some block ∧
     new_write {| stack_entries := Some [10; 0]; stack_size := 2; top := 1 |}
               (Some 20) 4
       = Ret (done_ sizeof_int32 KWritten, st') ∧
     live st' = [10] ++ [20] ∧
     top st' = 1 + 1 ∧ stack_size st' = 2 ∧
     stack_entries st' = Some (<[Z.to_nat 1 := 20]> block)) ∧
  (2 ≤ 1 →
   new_write {| stack_entries := Some [10; 0]; stack_size := 2; top := 1 |}
             None 4
     = Ret (fail_ ENOMEM KFull,
            {| stack_entries := Some [10; 0]; stack_size := 2; top := 1 |})).
Proof.
  assert (wf {| stack_entries := Some [10; 0]; stack_size := 2; top := 1 |}) as Hwf.
  { unfold wf, uint8; cbn. repeat split; lia. }
  split; [exact Hwf|].
  exact (new_write_push _ 20 None 4 Hwf).
Defined.

(** X4. A read from an empty stack returns [-EINVAL] and changes nothing.
    A read into a writable buffer from a stack whose live elements end in
    [v] returns 4, hands [v] to the caller and drops it from the live
    elements; the block itself is not touched. *)
Theorem new_read_pop st user_ok len :
  wf st →
  (live st = [] → new_read st user_ok len = Ret (fail_ EINVAL KEmpty, st)) ∧
  (∀ l v, live st = l ++ [v] →
     ∃ st',
       new_read st true len
         = Ret ({| ret := sizeof_int32; dmesg := KRead; to_user := Some v |}, st') ∧
       live st' = l ∧
       top st' = top st - 1 ∧ stack_size st' = stack_size st ∧
       stack_entries st' = stack_entries st).
Proof.
  intros Hwf. pose proof (length_live st Hwf) as Hlen.
  pose proof Hwf as (_ & Ht & _). unfold uint8 in Ht. split.
  - intros Hnil. rewrite Hnil in Hlen. apply new_read_empty. cbn in Hlen. lia.
  - intros l v Hlive.
    destruct (new_read_last st len l v Hwf Hlive) as (st' & Heq & Htop & Hsz & Hl).
    exists st'. split; [done|]. repeat split; try done.
    rewrite Hlive, length_app in Hlen. cbn in Hlen.
    destruct (new_read_some st Hwf len) as (block & w & Hb & _ & Heq'); [lia|].
    rewrite Heq in Heq'. injection Heq' as _ ->. by rewrite Hb.
Qed.

Lemma new_read_pop_witness :
  wf {| stack_entries := Some [10; 20]; stack_size := 2; top := 2 |} ∧
  (live {| stack_entries := Some [10; 20]; stack_size := 2; top := 2 |} = [] →
   new_read {| stack_entries := Some [10; 20]; stack_size := 2; top := 2 |} true 4
     = Ret (fail_ EINVAL KEmpty,
            {| stack_entries := Some [10; 20]; stack_size := 2; top := 2 |})) ∧
  (∀ l v,
     live {| stack_entries := Some [10; 20]; stack_size := 2; top := 2 |} = l ++ [v] →
     ∃ st',
       new_read {| stack_entries := Some [10; 20]; stack_size := 2; top := 2 |} true 4
         = Ret ({| ret := sizeof_int32; dmesg := KRead; to_user := Some v |}, st') ∧
       live st' = l ∧
       top st' = 2 - 1 ∧ stack_size st' = 2 ∧
       stack_entries st' = Some [10; 20]).
Proof.
  assert (wf {| stack_entries := Some [10; 20]; stack_size := 2; top := 2 |}) as Hwf.
  { unfold wf, uint8; cbn. repeat split; lia. }
  split; [exact Hwf|].
  exact (new_read_pop _ true 4 Hwf).
Defined.

(** ** Faulting user buffers *)

(** X5. A read into a buffer that cannot be written loses nothing: on a
    stack with elements it returns [-EFAULT] and leaves the state as it
    was.  On an empty stack the empty check comes first and the answer is
    [-EINVAL]. *)
Theorem new_read_user_fault st len :
  wf st →
  new_read st false len =
    Ret (if top st =? 0 then fail_ EINVAL KEmpty else fail_ EFAULT KCopyToUser, st).
Proof.
  intros Hwf. unfold new_read.
  destruct (Z.eqb_spec (top st) 0) as [|Hnz]; [done|].
  destruct (new_read_some st Hwf len Hnz) as (block & v & -> & -> & _). done.
Qed.

Lemma new_read_user_fault_witness :
  wf {| stack_entries := Some [10; 20]; stack_size := 2; top := 2 |} ∧
  new_read {| stack_entries := Some [10; 20]; stack_size := 2; top := 2 |} false 4
    = Ret (if 2 =? 0 then fail_ EINVAL KEmpty else fail_ EFAULT KCopyToUser,
           {| stack_entries := Some [10; 20]; stack_size := 2; top := 2 |}).
Proof.
  assert (wf {| stack_entries := Some [10; 20]; stack_size := 2; top := 2 |}) as Hwf.
  { unfold wf, uint8; cbn. repeat split; lia. }
  split; [exact Hwf|].
  exact (new_read_user_fault _ 4 Hwf).
Defined.

(** X6. A write from a buffer that cannot be read pushes nothing: it
    returns [-EFAULT] when there is room and [-ENOMEM] when the stack is
    full (the full check comes first), and [top], [stack_size] and the
    live elements stay as they were. *)
Theorem new_write_user_fault st len :
  wf st →
  ∃ st',
    new_write st None len =
      Ret (if top st >=? stack_size st
           then fail_ ENOMEM KFull else fail_ EFAULT KCopyFromUser, st') ∧
    top st' = top st ∧ stack_size st' = stack_size st ∧ live st' = live st.
Proof.
  intros Hwf. exists st. split; [|done]. unfold new_write.
  destruct (Z.geb_spec (top st) (stack_size st)) as [|Hlt]; [done|].
  destruct (wf_exists_block st Hwf) as (block & -> & Hin); [lia|].
  by case_decide.
Qed.

Lemma new_write_user_fault_witness :
  wf {| stack_entries := Some [10; 0]; stack_size := 2; top := 1 |} ∧
  ∃ st',
    new_write {| stack_entries := Some [10; 0]; stack_size := 2; top := 1 |} None 4
      = Ret (if 1 >=? 2 then fail_ ENOMEM KFull else fail_ EFAULT KCopyFromUser, st') ∧
    top st' = 1 ∧ stack_size st' = 2 ∧ live st' = [10].
Proof.
  assert (wf {| stack_entries := Some [10; 0]; stack_size := 2; top := 1 |}) as Hwf.
  { unfold wf, uint8; cbn. repeat split; lia. }
  split; [exact Hwf|].
  exact (new_write_user_fault _ 4 Hwf).
Defined.

(** X7. A call that returns a negative number has changed nothing a
    caller can see: [top], [stack_size], the live elements and whether the
    stack exists are as before.  This holds in every state and for every
    one of the five file operations. *)
Theorem failed_call_changes_nothing c st r st' :
  exec c st = Ret (r, st') → ret r < 0 →
  top st' = top st ∧ stack_size st' = stack_size st ∧
  live st' = live st ∧ exists_ st' = exists_ st.
Proof.
  intros Hexec Hneg. enough (st' = st) as -> by done.
  revert Hexec.
  destruct c as [km| |ok len|user len|km cmd arg]; cbn.
  - unfold new_open. destruct (stack_entries st).
    + intros [= <- _]. cbn in Hneg. lia.
    + destruct (kmalloc km MEM_SIZE); intros [= <- <-]; [|done].
      cbn in Hneg. lia.
  - unfold new_release. destruct (stack_entries st);
      intros [= <- _]; cbn in Hneg; lia.
  - unfold new_read. destruct (top st =? 0); [by intros [= _ <-]|].
    destruct (stack_entries st) as [block|]; [|done].
    destruct (block !! _); [|done].
    destruct ok; intros [= <- <-]; [|done].
    unfold sizeof_int32 in Hneg. cbn in Hneg. lia.
  - unfold new_write. destruct (top st >=? stack_size st); [by intros [= _ <-]|].
    destruct (stack_entries st) as [block|]; [|done].
    case_decide; [|done].
    destruct user; intros [= <- <-]; [|done].
    unfold sizeof_int32 in Hneg. cbn in Hneg. lia.
  - unfold new_ioctl. destruct (cmd =? 1); [|by intros [= _ <-]].
    destruct (_ && _); [|by intros [= _ <-]].
    destruct (kmalloc km arg) as [new_stack|]; [|by intros [= _ <-]].
    destruct (stack_entries st) as [old|]; cbn.
    + destruct (memcpy new_stack old _); cbn; [|done].
      intros [= <- _]. cbn in Hneg. lia.
    + intros [= <- _]. cbn in Hneg. lia.
Qed.

Lemma failed_call_changes_nothing_witness :
  exec (Ioctl None 1 7)
       {| stack_entries := Some [10; 20]; stack_size := 2; top := 2 |}
    = Ret (fail_ ENOMEM KResizeNoMem,
           {| stack_entries := Some [10; 20]; stack_size := 2; top := 2 |}) ∧
  ret (fail_ ENOMEM KResizeNoMem) < 0 ∧
  top {| stack_entries := Some [10; 20]; stack_size := 2; top := 2 |} = 2 ∧
  stack_size {| stack_entries := Some [10; 20]; stack_size := 2; top := 2 |} = 2 ∧
  live {| stack_entries := Some [10; 20]; stack_size := 2; top := 2 |} = [10; 20] ∧
  exists_ {| stack_entries := Some [10; 20]; stack_size := 2; top := 2 |} = true.
Proof.
  assert (ret (fail_ ENOMEM KResizeNoMem) < 0) as Hneg by (unfold ENOMEM; cbn; lia).
  split; [reflexivity|]. split; [exact Hneg|].
  exact (failed_call_changes_nothing (Ioctl None 1 7)
           {| stack_entries := Some [10; 20]; stack_size := 2; top := 2 |}
           _ _ eq_refl Hneg).
Defined.

(** ** Control commands *)

(** X8. Every control command other than 1 is refused in every state
    with [-EINVAL] on the invalid-command return, whatever its argument;
    the allocator is not asked and the state is left as it was. *)
Theorem ioctl_unknown_command st km cmd arg :
  cmd ≠ 1 →
  new_ioctl st km cmd arg = Ret (fail_ EINVAL KInvalidCmd, st) ∧
  error_of (fail_ EINVAL KInvalidCmd) = Some Err.UnsupportedCommand.
Proof.
  intros Hcmd. split; [|done]. unfold new_ioctl.
  by destruct (Z.eqb_spec cmd 1).
Qed.

Lemma ioctl_unknown_command_witness :
  2 ≠ 1 ∧
  new_ioctl {| stack_entries := Some [10; 20]; stack_size := 2; top := 2 |}
            (Some zeroed) 2 5
    = Ret (fail_ EINVAL KInvalidCmd,
           {| stack_entries := Some [10; 20]; stack_size := 2; top := 2 |}) ∧
  error_of (fail_ EINVAL KInvalidCmd) = Some Err.UnsupportedCommand.
Proof.
  assert (2 ≠ 1) as Hcmd by lia.
  split; [exact Hcmd|].
  exact (ioctl_unknown_command _ (Some zeroed) 2 5 Hcmd).
Defined.

(** X9. A resize to a valid size for which [kmalloc] returns [NULL]
    fails with [-ENOMEM] and keeps the old block, [stack_size] and [top],
    in every state: also when the size is below [top], where a resize with
    memory available would overrun. *)
Theorem ioctl_resize_without_memory st arg :
  0 < arg ≤ STACK_MAX_SIZE →
  new_ioctl st None 1 arg = Ret (fail_ ENOMEM KResizeNoMem, st) ∧
  error_of (fail_ ENOMEM KResizeNoMem) = Some Err.AllocationFailure.
Proof.
  intros Harg. split; [|done]. unfold new_ioctl. cbn [Z.eqb Pos.eqb].
  destruct (Z.ltb_spec 0 arg); [|lia].
  destruct (Z.leb_spec arg STACK_MAX_SIZE); [|lia]. done.
Qed.

Lemma ioctl_resize_without_memory_witness :
  0 < 3 ≤ STACK_MAX_SIZE ∧
  new_ioctl {| stack_entries := Some [1; 2; 3; 4; 5]; stack_size := 5; top := 5 |}
            None 1 3
    = Ret (fail_ ENOMEM KResizeNoMem,
           {| stack_entries := Some [1; 2; 3; 4; 5]; stack_size := 5; top := 5 |}) ∧
  error_of (fail_ ENOMEM KResizeNoMem) = Some Err.AllocationFailure.
Proof.
  assert (0 < 3 ≤ STACK_MAX_SIZE) as Harg by (unfold STACK_MAX_SIZE; lia).
  split; [exact Harg|].
  exact (ioctl_resize_without_memory _ 3 Harg).
Defined.

(** ** Sessions *)

(** X10. Once an open has succeeded, every further open returns 0 and
    changes nothing, whatever the allocator would answer: the block, its
    contents, [stack_size] and [top] are kept. *)
Theorem open_after_open_is_noop km1 km2 st :
  succeeded (new_open km1 st).1 →
  new_open km2 (new_open km1 st).2 = (done_ 0 KOpened, (new_open km1 st).2).
Proof.
  unfold new_open at 1 3 4.
  destruct (stack_entries st) as [block|] eqn:Hb; cbn.
  - intros _. unfold new_open. by rewrite Hb.
  - destruct (kmalloc km1 MEM_SIZE); cbn; [done|].
    unfold succeeded, ENOMEM; cbn. lia.
Qed.

Lemma open_after_open_is_noop_witness :
  succeeded (new_open (Some zeroed) init).1 ∧
  new_open None (new_open (Some zeroed) init).2
    = (done_ 0 KOpened,
       {| stack_entries := Some (replicate 1024 0); stack_size := 0; top := 0 |}).
Proof.
  assert (succeeded (new_open (Some zeroed) init).1) as Hok.
  { unfold succeeded; cbn. lia. }
  split; [exact Hok|].
  exact (open_after_open_is_noop (Some zeroed) None init Hok).
Defined.

(** X11. While [stack_size] and [top] are both 0, as they are when the
    module is loaded, after a release, and after an open (which stores
    1024 as 0), every read and every write fails and the state does not
    move, however many of them are made. *)
Theorem zero_capacity_refuses_all cs st :
  stack_size st = 0 → top st = 0 →
  forallb is_read_or_write cs = true →
  ∃ rs, run cs st = Ret (rs, st) ∧
        length rs = length cs ∧ Forall (λ r, ret r < 0) rs.
Proof.
  intros Hs Ht. induction cs as [|c cs IH]; intros Hrw.
  - exists []. split; [done|]. split; [done|]. apply Forall_nil_2.
  - cbn in Hrw. apply andb_prop in Hrw as [Hc Hcs].
    destruct (IH Hcs) as (rs & Hrun & Hlen & Hall).
    destruct c as [km| |ok len|user len|km cmd arg]; try done.
    + exists (fail_ EINVAL KEmpty :: rs). split; [|split].
      * apply run_cons with st; [|done]. cbn. by apply new_read_empty.
      * cbn. by rewrite Hlen.
      * apply Forall_cons_2; [|done]. unfold EINVAL; cbn. lia.
    + exists (fail_ ENOMEM KFull :: rs). split; [|split].
      * apply run_cons with st; [|done]. cbn. apply new_write_full. lia.
      * cbn. by rewrite Hlen.
      * apply Forall_cons_2; [|done]. unfold ENOMEM; cbn. lia.
Qed.

Lemma zero_capacity_refuses_all_witness :
  stack_size (new_open (Some zeroed) init).2 = 0 ∧
  top (new_open (Some zeroed) init).2 = 0 ∧
  forallb is_read_or_write [Write (Some 7) 4; Read true 4; Write (Some 8) 4] = true ∧
  ∃ rs, run [Write (Some 7) 4; Read true 4; Write (Some 8) 4]
            (new_open (Some zeroed) init).2
          = Ret (rs, (new_open (Some zeroed) init).2) ∧
        length rs = 3%nat ∧ Forall (λ r, ret r < 0) rs.
Proof.
  split; [reflexivity|]. split; [reflexivity|]. split; [reflexivity|].
  exact (zero_capacity_refuses_all
           [Write (Some 7) 4; Read true 4; Write (Some 8) 4]
           (new_open (Some zeroed) init).2 eq_refl eq_refl eq_refl).
Defined.

(** ** Filling and draining *)

Lemma pushes_fit vs : ∀ st len,
  wf st → top st + Z.of_nat (length vs) ≤ stack_size st →
  ∃ st',
    run (pushes vs len) st
      = Ret (replicate (length vs) (done_ sizeof_int32 KWritten), st') ∧
    live st' = live st ++ vs ∧
    top st' = top st + Z.of_nat (length vs) ∧
    stack_size st' = stack_size st ∧ wf st'.
Proof.
  induction vs as [|v vs IH]; intros st len Hwf Hfit.
  - exists st. cbn. rewrite app_nil_r, Z.add_0_r. by split_and!.
  - cbn [length] in Hfit.
    destruct (new_write_room st Hwf v len) as (block & Hb & Hin & Heq); [lia|].
    assert (succeeded (done_ sizeof_int32 KWritten)) as Hok
      by (unfold succeeded, sizeof_int32; cbn; lia).
    destruct (new_write_succeeded _ _ _ _ _ Hwf Heq Hok)
      as (_ & _ & Htop & Hsz & Hlive).
    pose proof (new_write_wf st Hwf _ _ _ _ Heq) as Hwf1.
    destruct (IH _ len Hwf1) as (st' & Hrun & Hlive' & Htop' & Hsz' & Hwf');
      [rewrite Htop, Hsz; lia|].
    exists st'. split; [|split; [|split; [|split]]].
    + cbn [pushes fmap list_fmap length replicate].
      eapply run_cons; [exact Heq|exact Hrun].
    + rewrite Hlive', Hlive, <- app_assoc. done.
    + rewrite Htop', Htop. cbn [length]. lia.
    + by rewrite Hsz'.
    + done.
Qed.

(** X12. On a stack with room for exactly [length vs] more values, the
    pushes of [vs] all return 4 and append [vs] to the live elements in
    order, and one more push is refused with [-ENOMEM] and changes
    nothing. *)
Theorem pushes_fill_to_capacity st vs v len :
  wf st → top st + Z.of_nat (length vs) = stack_size st →
  ∃ st',
    run (pushes (vs ++ [v]) len) st
      = Ret (replicate (length vs) (done_ sizeof_int32 KWritten)
               ++ [fail_ ENOMEM KFull], st') ∧
    live st' = live st ++ vs ∧
    top st' = stack_size st' ∧ stack_size st' = stack_size st.
Proof.
  intros Hwf Hfit.
  destruct (pushes_fit vs st len Hwf) as (st' & Hrun & Hlive & Htop & Hsz & _); [lia|].
  exists st'. split; [|split; [done|split; [lia|done]]].
  unfold pushes. rewrite fmap_app. cbn [fmap list_fmap].
  eapply run_snoc; [exact Hrun|]. cbn. apply new_write_full. lia.
Qed.

Lemma pushes_fill_to_capacity_witness :
  wf {| stack_entries := Some [10; 0; 0]; stack_size := 3; top := 1 |} ∧
  1 + Z.of_nat (length [20; 30]) = 3 ∧
  ∃ st',
    run (pushes ([20; 30] ++ [40]) 4)
        {| stack_entries := Some [10; 0; 0]; stack_size := 3; top := 1 |}
      = Ret (replicate 2 (done_ sizeof_int32 KWritten) ++ [fail_ ENOMEM KFull], st') ∧
    live st' = [10] ++ [20; 30] ∧
    top st' = stack_size st' ∧ stack_size st' = 3.
Proof.
  assert (wf {| stack_entries := Some [10; 0; 0]; stack_size := 3; top := 1 |}) as Hwf.
  { unfold wf, uint8; cbn. repeat split; lia. }
  split; [exact Hwf|]. split; [reflexivity|].
  exact (pushes_fill_to_capacity _ [20; 30] 40 4 Hwf eq_refl).
Defined.

(** X13. As many reads as there are live elements all return 4 and hand
    the live elements back last to first; they leave [top = 0], and one
    more read returns [-EINVAL] and changes nothing. *)
Theorem pops_drain st len user_ok len' :
  wf st →
  ∃ rs st',
    run (pops (length (live st)) len ++ [Read user_ok len']) st
      = Ret (rs ++ [fail_ EINVAL KEmpty], st') ∧
    to_user <$> rs = Some <$> reverse (live st) ∧
    Forall (λ r, ret r = sizeof_int32) rs ∧
    top st' = 0 ∧ stack_size st' = stack_size st.
Proof.
  intros Hwf.
  enough (∀ l st, wf st → live st = l →
            ∃ rs st', run (pops (length l) len) st = Ret (rs, st') ∧
                      to_user <$> rs = Some <$> reverse l ∧
                      Forall (λ r, ret r = sizeof_int32) rs ∧
                      top st' = 0 ∧ stack_size st' = stack_size st) as Hdrain.
  { destruct (Hdrain (live st) st Hwf eq_refl) as (rs & st' & Hrun & Hout & Hret & Htop & Hsz).
    exists rs, st'. split; [|done].
    eapply run_snoc; [exact Hrun|]. cbn. by apply new_read_empty. }
  clear st Hwf. induction l as [|v l IH] using rev_ind; intros st Hwf Hlive.
  - exists [], st. split; [done|]. split; [done|]. split; [apply Forall_nil_2|].
    split; [|done]. pose proof (length_live st Hwf) as Hlen.
    rewrite Hlive in Hlen. destruct Hwf as (_ & Ht & _). unfold uint8 in Ht.
    cbn in Hlen. lia.
  - destruct (new_read_last st len l v Hwf Hlive) as (st1 & Heq & Htop1 & Hsz1 & Hlive1).
    pose proof (new_read_wf st Hwf _ _ _ _ Heq) as Hwf1.
    destruct (IH st1 Hwf1 Hlive1) as (rs & st' & Hrun & Hout & Hret & Htop & Hsz).
    exists ({| ret := sizeof_int32; dmesg := KRead; to_user := Some v |} :: rs), st'.
    split; [|split; [|split; [|split]]].
    + rewrite length_app, Nat.add_1_r. cbn [pops replicate].
      eapply run_cons; [exact Heq|exact Hrun].
    + rewrite reverse_app. cbn. by rewrite Hout.
    + by apply Forall_cons_2.
    + done.
    + by rewrite Hsz.
Qed.

Lemma pops_drain_witness :
  wf {| stack_entries := Some [10; 20; 0]; stack_size := 3; top := 2 |} ∧
  ∃ rs st',
    run (pops 2 4 ++ [Read true 4])
        {| stack_entries := Some [10; 20; 0]; stack_size := 3; top := 2 |}
      = Ret (rs ++ [fail_ EINVAL KEmpty], st') ∧
    to_user <$> rs = [Some 20; Some 10] ∧
    Forall (λ r, ret r = sizeof_int32) rs ∧
    top st' = 0 ∧ stack_size st' = 3.
Proof.
  assert (wf {| stack_entries := Some [10; 20; 0]; stack_size := 3; top := 2 |}) as Hwf.
  { unfold wf, uint8; cbn. repeat split; lia. }
  split; [exact Hwf|].
  exact (pops_drain _ 4 true 4 Hwf).
Defined.

(** X14. On a stack with [top ≤ stack_size], a read followed by a write
    of the value just read brings back exactly the state before the read:
    same block, same [top], same [stack_size]. *)
Theorem read_then_write_back st len len' :
  wf st → top st ≠ 0 → top st ≤ stack_size st →
  ∃ v st1,
    new_read st true len
      = Ret ({| ret := sizeof_int32; dmesg := KRead; to_user := Some v |}, st1) ∧
    new_write st1 (Some v) len' = Ret (done_ sizeof_int32 KWritten, st).
Proof.
  intros Hwf Hnz Hle.
  destruct (new_read_some st Hwf len Hnz) as (block & v & Hb & Hv & Heq).
  eexists v, _. split; [exact Heq|].
  pose proof (new_read_wf st Hwf _ _ _ _ Heq) as Hwf1.
  destruct (new_write_room _ Hwf1 v len') as (block1 & Hb1 & _ & Heq1); [cbn; lia|].
  rewrite Heq1. cbn in Hb1. injection Hb1 as <-. cbn.
  rewrite list_insert_id by done.
  replace (top st - 1 + 1) with (top st) by lia.
  destruct st; cbn in *. by subst.
Qed.

Lemma read_then_write_back_witness :
  wf {| stack_entries := Some [10; 20; 0]; stack_size := 3; top := 2 |} ∧
  2 ≠ 0 ∧ 2 ≤ 3 ∧
  ∃ v st1,
    new_read {| stack_entries := Some [10; 20; 0]; stack_size := 3; top := 2 |} true 4
      = Ret ({| ret := sizeof_int32; dmesg := KRead; to_user := Some v |}, st1) ∧
    new_write st1 (Some v) 4
      = Ret (done_ sizeof_int32 KWritten,
             {| stack_entries := Some [10; 20; 0]; stack_size := 3; top := 2 |}).
Proof.
  assert (wf {| stack_entries := Some [10; 20; 0]; stack_size := 3; top := 2 |}) as Hwf.
  { unfold wf, uint8; cbn. repeat split; lia. }
  assert (2 ≠ 0) as Hnz by lia. assert (2 ≤ 3) as Hle by lia.
  split; [exact Hwf|]. split; [exact Hnz|]. split; [exact Hle|].
  exact (read_then_write_back _ 4 4 Hwf Hnz Hle).
Defined.

(** ** Where the bound on [top] can be lost *)



(** ** Resizing within eight bits *)

(** X16. A resize, with memory available, to a size between [top] and
    255 makes the capacity exactly that size and keeps the live elements:
    the next [arg - top] pushes all return 4 and append their values in
    order, and the push after them is refused with [-ENOMEM]. *)
Theorem resize_then_fill st junk arg vs v len :
  wf st → 0 < arg ≤ 255 → top st ≤ arg →
  Z.of_nat (length vs) = arg - top st →
  ∃ st',
    run (Ioctl (Some junk) 1 arg :: pushes (vs ++ [v]) len) st
      = Ret (done_ 0 (KResized arg)
               :: replicate (length vs) (done_ sizeof_int32 KWritten)
               ++ [fail_ ENOMEM KFull], st') ∧
    live st' = live st ++ vs ∧
    stack_size st' = arg ∧ top st' = arg.
Proof.
  intros Hwf Harg Hle Hlen.
  destruct (new_ioctl_from_top st junk arg Hwf) as (block & Hio & Hblock & Hlive);
    [unfold STACK_MAX_SIZE; lia|done|].
  pose proof (new_ioctl_wf st Hwf _ _ _ _ _ Hio) as Hwf1.
  assert (to_uint8 arg = arg) as Hsmall by (apply to_uint8_small; unfold uint8; lia).
  rewrite Hsmall in Hio, Hwf1.
  destruct (pushes_fit vs _ len Hwf1) as (st' & Hrun & Hlive' & Htop & Hsz & _);
    [cbn; lia|].
  cbn [top stack_size] in Htop, Hsz.
  exists st'. split; [|split; [|split; [done|lia]]].
  - eapply run_cons; [exact Hio|].
    unfold pushes. rewrite fmap_app. cbn [fmap list_fmap].
    eapply run_snoc; [exact Hrun|]. cbn. apply new_write_full. lia.
  - rewrite Hlive'. unfold live at 1. cbn. by rewrite Hlive.
Qed.

Lemma resize_then_fill_witness :
  wf {| stack_entries := Some [10; 0]; stack_size := 2; top := 1 |} ∧
  0 < 3 ≤ 255 ∧ 1 ≤ 3 ∧ Z.of_nat (length [20; 30]) = 3 - 1 ∧
  ∃ st',
    run (Ioctl (Some zeroed) 1 3 :: pushes ([20; 30] ++ [40]) 4)
        {| stack_entries := Some [10; 0]; stack_size := 2; top := 1 |}
      = Ret (done_ 0 (KResized 3)
               :: replicate 2 (done_ sizeof_int32 KWritten)
               ++ [fail_ ENOMEM KFull], st') ∧
    live st' = [10] ++ [20; 30] ∧
    stack_size st' = 3 ∧ top st' = 3.
Proof.
  assert (wf {| stack_entries := Some [10; 0]; stack_size := 2; top := 1 |}) as Hwf.
  { unfold wf, uint8; cbn. repeat split; lia. }
  assert (0 < 3 ≤ 255) as Harg by lia. assert (1 ≤ 3) as Hle by lia.
  split; [exact Hwf|]. split; [exact Harg|]. split; [exact Hle|].
  split; [reflexivity|].
  exact (resize_then_fill _ zeroed 3 [20; 30] 40 4 Hwf Harg Hle eq_refl).
Defined.

(** ** Loading and unloading the module *)



(** X18. Unloading the module gives back everything, whatever was held
    and whatever the stack contained: afterwards nothing is registered
    and the globals are back at their initial values.  On the stack,
    [character_driver_exit] does what a release does. *)
Theorem driver_exit_releases_everything m :
  wf (globals m) →
  (driver_exit m).1 = IRemoved ∧
  globals (driver_exit m).2 = init ∧
  nothing_held (registered (driver_exit m).2) ∧
  dev (registered (driver_exit m).2) = dev (registered m) ∧
  character_driver_exit (globals m) = (new_release (globals m)).2.
Proof.
  intros Hwf. split; [done|]. cbn.
  assert (character_driver_exit (globals m) = (new_release (globals m)).2) as Heq.
  { unfold character_driver_exit, new_release. by destruct (stack_entries _). }
  split; [|by repeat split].
  rewrite Heq. by rewrite new_release_init.
Qed.

Lemma driver_exit_releases_everything_witness :
  wf {| stack_entries := Some [10; 20]; stack_size := 2; top := 1 |} ∧
  (driver_exit
     {| globals := {| stack_entries := Some [10; 20]; stack_size := 2; top := 1 |};
        registered := (character_driver_init (InitOracle (Some 7) true true true)
                         unloaded).2 |}).1 = IRemoved ∧
  globals (driver_exit
     {| globals := {| stack_entries := Some [10; 20]; stack_size := 2; top := 1 |};
        registered := (character_driver_init (InitOracle (Some 7) true true true)
                         unloaded).2 |}).2 = init ∧
  nothing_held (registered (driver_exit
     {| globals := {| stack_entries := Some [10; 20]; stack_size := 2; top := 1 |};
        registered := (character_driver_init (InitOracle (Some 7) true true true)
                         unloaded).2 |}).2) ∧
  dev (registered (driver_exit
     {| globals := {| stack_entries := Some [10; 20]; stack_size := 2; top := 1 |};
        registered := (character_driver_init (InitOracle (Some 7) true true true)
                         unloaded).2 |}).2) = 7 ∧
  character_driver_exit {| stack_entries := Some [10; 20]; stack_size := 2; top := 1 |}
    = (new_release {| stack_entries := Some [10; 20]; stack_size := 2; top := 1 |}).2.
Proof.
  assert (wf {| stack_entries := Some [10; 20]; stack_size := 2; top := 1 |}) as Hwf.
  { unfold wf, uint8; cbn. repeat split; lia. }
  split; [exact Hwf|].
  exact (driver_exit_releases_everything
           {| globals := {| stack_entries := Some [10; 20]; stack_size := 2; top := 1 |};
              registered := (character_driver_init (InitOracle (Some 7) true true true)
                               unloaded).2 |} Hwf).
Defined.

(** ** What a resize keeps *)

(** X19. No control command that returns changes [top] or the live
    elements, whether it succeeds or fails and whatever the size; after a
    successful resize to [arg] the block has exactly [arg] cells, also
    when the stored capacity is only [arg mod 256]. *)
Theorem ioctl_keeps_live st km cmd arg r st' :
  wf st → new_ioctl st km cmd arg = Ret (r, st') →
  top st' = top st ∧ live st' = live st ∧
  (succeeded r →
   ∃ block, stack_entries st' = Some block ∧ length block = Z.to_nat arg ∧
            stack_size st' = arg mod 256).
Proof.
  intros Hwf Hio.
  destruct (new_ioctl_inv st Hwf _ _ _ _ _ Hio) as [Hok Hfail].
  destruct (Z.lt_ge_cases (ret r) 0) as [Hneg|Hpos].
  - rewrite (Hfail Hneg). split; [done|]. split; [done|].
    unfold succeeded. lia.
  - destruct (Hok Hpos) as (_ & _ & _ & block & Hb & Hlen & Hsz & Htop & _ & Hlive).
    split; [done|]. split; [done|]. intros _. by exists block.
Qed.

Lemma ioctl_keeps_live_witness :
  wf {| stack_entries := Some [10; 20]; stack_size := 2; top := 2 |} ∧
  new_ioctl {| stack_entries := Some [10; 20]; stack_size := 2; top := 2 |}
            (Some zeroed) 1 300
    = Ret (done_ 0 (KResized 300),
           {| stack_entries := Some (10 :: 20 :: replicate 298 0);
              stack_size := 44; top := 2 |}) ∧
  top {| stack_entries := Some (10 :: 20 :: replicate 298 0);
         stack_size := 44; top := 2 |} = 2 ∧
  live {| stack_entries := Some (10 :: 20 :: replicate 298 0);
          stack_size := 44; top := 2 |} = [10; 20] ∧
  (succeeded (done_ 0 (KResized 300)) →
   ∃ block, Some (10 :: 20 :: replicate 298 0) = Some block ∧
            length block = Z.to_nat 300 ∧ 44 = 300 mod 256).
Proof.
  assert (wf {| stack_entries := Some [10; 20]; stack_size := 2; top := 2 |}) as Hwf.
  { unfold wf, uint8; cbn. repeat split; lia. }
  assert (new_ioctl {| stack_entries := Some [10; 20]; stack_size := 2; top := 2 |}
                    (Some zeroed) 1 300
          = Ret (done_ 0 (KResized 300),
                 {| stack_entries := Some (10 :: 20 :: replicate 298 0);
                    stack_size := 44; top := 2 |}))
    as Hio by (vm_compute; reflexivity).
  split; [exact Hwf|]. split; [exact Hio|].
  exact (ioctl_keeps_live _ _ _ _ _ _ Hwf Hio).
Defined.

(** ** Fresh memory is never handed out *)

Lemma exec_live c st r st' :
  wf st → exec c st = Ret (r, st') →
  (∀ x, x ∈ live st' → x ∈ live st ∨ ∃ len, c = Write (Some x) len) ∧
  (∀ x, to_user r = Some x → x ∈ live st).
Proof.
  intros Hwf. destruct c as [km| |ok len|user len|km cmd arg]; cbn.
  - unfold new_open. destruct (stack_entries st) eqn:Hb.
    + intros [= <- <-]. split; [by left|done].
    + destruct (kmalloc km MEM_SIZE); intros [= <- <-].
      * split; [|done]. unfold live; cbn. intros x Hx. by apply elem_of_nil in Hx.
      * split; [by left|done].
  - unfold new_release. destruct (stack_entries st) eqn:Hb; intros [= <- <-].
    + split; [|done]. unfold live; cbn. intros x Hx. by apply elem_of_nil in Hx.
    + split; [by left|done].
  - destruct (Z.eq_dec (top st) 0) as [Hz|Hnz].
    { rewrite new_read_empty by done. intros [= <- <-]. split; [by left|done]. }
    destruct (new_read_some st Hwf len Hnz) as (block & v & Hb & Hv & Heq).
    assert (live st = take (Z.to_nat (top st - 1)) block ++ [v]) as Hlive.
    { unfold live. rewrite Hb.
      destruct Hwf as (_ & Ht & _). unfold uint8 in Ht.
      replace (Z.to_nat (top st)) with (S (Z.to_nat (top st - 1))) by lia.
      by apply take_S_r. }
    destruct ok.
    + rewrite Heq. intros [= <- <-]. cbn. split.
      * intros x Hx. left. rewrite Hlive. apply elem_of_app. left.
        unfold live in Hx. cbn in Hx. done.
      * intros x [= <-]. rewrite Hlive. apply elem_of_app. right.
        by apply list_elem_of_singleton.
    + unfold new_read. destruct (Z.eqb_spec (top st) 0); [done|].
      rewrite Hb, Hv. intros [= <- <-]. split; [by left|done].
  - destruct (Z.lt_ge_cases (top st) (stack_size st)) as [Hlt|Hge].
    + destruct user as [v|].
      * intros Hw.
        destruct (new_write_room st Hwf v len Hlt) as (block & _ & _ & Heq).
        assert (succeeded r) as Hok.
        { rewrite Heq in Hw. injection Hw as <- _.
          unfold succeeded, sizeof_int32; cbn. lia. }
        destruct (new_write_succeeded _ _ _ _ _ Hwf Hw Hok) as (_ & _ & _ & _ & Hlive).
        split.
        -- intros x Hx. rewrite Hlive in Hx. apply elem_of_app in Hx as [Hx|Hx];
             [by left|]. apply list_elem_of_singleton in Hx as ->. right. by exists len.
        -- rewrite Heq in Hw. by injection Hw as <- _.
      * unfold new_write.
        destruct (Z.geb_spec (top st) (stack_size st)); [lia|].
        destruct (wf_exists_block st Hwf Hlt) as (block & -> & Hin).
        case_decide; [|lia]. intros [= <- <-]. split; [by left|done].
    + rewrite new_write_full by done. intros [= <- <-]. split; [by left|done].
  - intros Hio. destruct (new_ioctl_inv st Hwf _ _ _ _ _ Hio) as [Hok Hfail].
    destruct (Z.lt_ge_cases (ret r) 0) as [Hneg|Hpos].
    + rewrite (Hfail Hneg). split; [by left|].
      revert Hio. unfold new_ioctl.
      destruct (cmd =? 1); [|by intros [= <- _]].
      destruct (_ && _); [|by intros [= <- _]].
      destruct (kmalloc km arg); [|by intros [= <- _]].
      destruct (stack_entries st) as [old|]; cbn.
      * destruct (memcpy _ old _); cbn; [|done]. by intros [= <- _].
      * by intros [= <- _].
    + destruct (Hok Hpos) as (_ & _ & -> & _ & _ & _ & _ & _ & _ & Hlive).
      rewrite Hlive. split; [by left|done].
Qed.

Lemma run_live cs : ∀ st rs st',
  wf st → run cs st = Ret (rs, st') →
  (∀ x, x ∈ live st' → x ∈ live st ∨ x ∈ pushed cs) ∧
  (∀ r x, r ∈ rs → to_user r = Some x → x ∈ live st ∨ x ∈ pushed cs).
Proof.
  induction cs as [|c cs IH]; intros st rs st' Hwf.
  - intros [= <- <-]. split; [by left|]. intros r x Hr. by apply elem_of_nil in Hr.
  - intros (r1 & st1 & rs1 & Hc & Hcs & ->)%run_cons_Ret.
    destruct (exec_live _ _ _ _ Hwf Hc) as [Hl1 Ho1].
    destruct (IH _ _ _ (exec_wf st Hwf _ _ _ Hc) Hcs) as [Hl Ho].
    assert (∀ x, x ∈ live st1 ∨ x ∈ pushed cs → x ∈ live st ∨ x ∈ pushed (c :: cs))
      as Hstep.
    { intros x [Hx|Hx].
      - destruct (Hl1 x Hx) as [|[len ->]]; [by left|].
        right. unfold pushed. cbn. apply elem_of_cons. by left.
      - right. unfold pushed in *. apply list_elem_of_omap in Hx as (c' & Hc' & Hf).
        apply list_elem_of_omap. exists c'. split; [|done].
        apply elem_of_cons. by right. }
    split.
    + intros x Hx. by apply Hstep, Hl.
    + intros r x Hr Hx. apply elem_of_cons in Hr as [->|Hr].
      * left. by apply Ho1.
      * apply Hstep. by eapply Ho.
Qed.

(** X20. The contents a fresh block happens to hold never reach a
    caller: after any calls since the module was loaded, every live
    element, and every value a read has handed out, is a value that one
    of the writes among those calls offered. *)
Theorem reads_return_pushed_values cs rs st :
  run cs init = Ret (rs, st) →
  (∀ x, x ∈ live st → x ∈ pushed cs) ∧
  (∀ r x, r ∈ rs → to_user r = Some x → x ∈ pushed cs).
Proof.
  intros Hrun. destruct (run_live cs _ _ _ wf_init Hrun) as [Hl Ho].
  split.
  - intros x Hx. destruct (Hl x Hx) as [Hnil|]; [|done].
    by apply elem_of_nil in Hnil.
  - intros r x Hr Hx. destruct (Ho r x Hr Hx) as [Hnil|]; [|done].
    by apply elem_of_nil in Hnil.
Qed.

Lemma reads_return_pushed_values_witness :
  run [Ioctl (Some (λ _, 99)) 1 2; Write (Some 10) 4; Write (Some 20) 4; Read true 4] init
    = Ret ([done_ 0 (KResized 2); done_ sizeof_int32 KWritten;
            done_ sizeof_int32 KWritten;
            {| ret := sizeof_int32; dmesg := KRead; to_user := Some 20 |}],
           {| stack_entries := Some [10; 20]; stack_size := 2; top := 1 |}) ∧
  (∀ x, x ∈ live {| stack_entries := Some [10; 20]; stack_size := 2; top := 1 |} →
        x ∈ pushed [Ioctl (Some (λ _, 99)) 1 2; Write (Some 10) 4;
                    Write (Some 20) 4; Read true 4]) ∧
  (∀ r x,
     r ∈ [done_ 0 (KResized 2); done_ sizeof_int32 KWritten;
          done_ sizeof_int32 KWritten;
          {| ret := sizeof_int32; dmesg := KRead; to_user := Some 20 |}] →
     to_user r = Some x →
     x ∈ pushed [Ioctl (Some (λ _, 99)) 1 2; Write (Some 10) 4;
                 Write (Some 20) 4; Read true 4]).
Proof.
  assert (run [Ioctl (Some (λ _, 99)) 1 2; Write (Some 10) 4; Write (Some 20) 4;
               Read true 4] init
          = Ret ([done_ 0 (KResized 2); done_ sizeof_int32 KWritten;
                  done_ sizeof_int32 KWritten;
                  {| ret := sizeof_int32; dmesg := KRead; to_user := Some 20 |}],
                 {| stack_entries := Some [10; 20]; stack_size := 2; top := 1 |}))
    as Hrun by (vm_compute; reflexivity).
  split; [exact Hrun|].
  exact (reads_return_pushed_values _ _ _ Hrun).
Defined.
